(** * Dejavu: the matcher / aligner and the ingestion driver

    A shallow embedding of [dejavu/__init__.py]: the vote histogram and the
    response compiled by [Dejavu.align_matches], the two ingestion entry
    points [Dejavu.fingerprint_directory] and [Dejavu.fingerprint_file], and
    the per-file worker [_fingerprint_worker]; with them the constructor
    [Dejavu.__init__], the cache refresh [Dejavu.get_fingerprinted_songs]
    and the helper [chunkify].  [Dejavu.find_matches] and [Dejavu.recognize]
    only hand over to the store and to a recognizer class, and are left out.

    Conventions of the embedding.
    - The module is Python 3 ([from dejavu import fingerprint], [print] as a
      function): [/] between integers is true division.
    - Python integers are [Z]; strings are [string]; [None] is [option]'s
      [None].
    - A dict that is only looked up is a [gmap]; a dict that is iterated
      ([largest_matches]) is an insertion-ordered association list, as
      Python 3.7+ iterates it.
    - A Python [set] is a [gset].
    - A call that may raise returns an [outcome]; code that threads the
      driver's attributes and the store is written in a state-and-exception
      monad.
    - A Python float is the rational it approximates.  The two float
      expressions of [align_matches] are also written out in binary64, and
      the last part shows that rounding does not change what they decide
      or report on offsets below 2^31 frames and counts below 2^53. *)

From Stdlib Require Import ZArith QArith Qabs Qround Qpower Lqa Lia.
From stdpp Require Import base option list gmap sets strings.

Local Open Scope Z_scope.

(** ** Exceptions and outcomes *)

Inductive exn : Type :=
  | AttributeError
  | ZeroDivisionError
  | KeyError (key : string)
  | StopIteration
  | TimeoutError
  | Exception (msg : string)
  | StoreError (msg : string)
  | DecodeError (msg : string).

Inductive outcome (A : Type) : Type :=
  | Return (a : A)
  | Raise (e : exn).
Arguments Return {A} a.
Arguments Raise {A} e.

(** ** Insertion-ordered dictionaries with integer keys *)

Module PyDict.
Section Dict.
Context {V : Type}.

(** [d[k] = v]: an existing key keeps its position, a new key goes last. *)
Fixpoint set (k : Z) (v : V) (d : list (Z * V)) : list (Z * V) :=
  match d with
  | [] => [(k, v)]
  | (k', v') :: d' =>
      if decide (k' = k) then (k, v) :: d' else (k', v') :: set k v d'
  end.

(** [d[k]] *)
Fixpoint get (k : Z) (d : list (Z * V)) : option V :=
  match d with
  | [] => None
  | (k', v') :: d' => if decide (k' = k) then Some v' else get k d'
  end.

(** The keys in iteration order. *)
Definition keys (d : list (Z * V)) : list Z := d.*1.

End Dict.
End PyDict.

(** ** The collaborators of the engine

    [dejavu.database], [dejavu.decoder] and [dejavu.fingerprint] are not part
    of this module; the engine only calls them.  A song record is the dict
    that the store hands out. *)

Abbreviation SongRec := (gmap string string).

(** A hash token with its anchor time, as [fingerprint.fingerprint] yields
    them. *)
Abbreviation Hash := (string * Z)%type.

(** Modelled from the spec: the key [Database.FIELD_FILE_SHA1] of the store
    interface, which the result object reports as [file_sha1]. *)
Definition FIELD_FILE_SHA1 : string := "file_sha1".

(** The store interface the engine consumes.  Reads answer from the current
    store; writes return the new store and may fail. *)
Class Database (DB : Type) := {
  get_songs : DB → list SongRec;
  get_song_by_id : DB → Z → option SongRec;
  insert_song :
    DB → string → string → option string → option string → outcome Z * DB;
  insert_hashes : DB → Z → gset Hash → outcome () * DB;
  set_song_fingerprinted : DB → Z → outcome () * DB;
}.

(** Modelled from the spec: the DSP constants of [dejavu.fingerprint]
    ([Fs] = 44100 Hz, window 4096, overlap ratio 0.5). *)
Definition DEFAULT_FS : Z := 44100.
Definition DEFAULT_WINDOW_SIZE : Z := 4096.
Definition DEFAULT_OVERLAP_RATIO : Q := 1 # 2.

(** ** Class attributes of [Dejavu] *)

Definition SONG_ID : string := "song_id".
Definition SONG_NAME : string := "song_name".
Definition SONG_DURATION : string := "song_duration".
Definition CREATIVE_ID : string := "creative_id".
Definition CONFIDENCE : string := "confidence".
Definition MATCH_TIME : string := "match_time".
Definition OFFSET : string := "offset".
Definition OFFSET_SECS : string := "offset_seconds".

(** ** Python numbers

    Over the rationals: [a / b] is the exact quotient and [round(x, n)]
    rounds the exact value half to even, as Python 3 does. *)

(** Python 3 true division [a / b] of two integers. *)
Definition true_div (a b : Z) : outcome Q :=
  if decide (b = 0) then Raise ZeroDivisionError
  else Return (inject_Z a / inject_Z b)%Q.

(** The integer nearest to [p / q] for [0 < q], ties going to the even one. *)
Definition round_half_even (p q : Z) : Z :=
  let f := p `div` q in
  let r := p `mod` q in
  if decide (2 * r < q) then f
  else if decide (q < 2 * r) then f + 1
  else if Z.even f then f else f + 1.

(** [round(x, ndigits)] for [0 <= ndigits]. *)
Definition py_round (x : Q) (ndigits : Z) : Q :=
  let scale := 10 ^ ndigits in
  Qmake (round_half_even (Qnum x * scale) (Zpos (Qden x))) (Z.to_pos scale).

(** ** [Dejavu.align_matches] *)

(** An entry [{'count': ..., 'diff': ...}] of [largest_matches]. *)
Module Entry.
Record t := mk { count : Z; diff : Z }.
End Entry.

(** An element of [fallback_matches]. *)
Module Fallback.
Record t := mk {
  song_id : Z;
  song_name : option string;
  song_duration : option string;
  creative_id : option string;
  confidence : Z;
  offset_seconds : Q;
  file_sha1 : option string;
}.
End Fallback.

(** The dict that [align_matches] returns. *)
Module Match.
Record t := mk {
  song_id : Z;
  song_name : option string;
  song_duration : option string;
  creative_id : option string;
  confidence : Z;
  offset : Z;
  offset_seconds : Q;
  file_sha1 : option string;
  fallback_matches : list Fallback.t;
}.
End Match.

(** The local variables of the voting loop. *)
Record AlignState := mkAlign {
  diff_counter : gmap Z (gmap Z Z);
  largest : Z;
  largest_count : Z;
  song_id : Z;
  largest_matches : list (Z * Entry.t);
}.

Definition align_init : AlignState :=
  {| diff_counter := ∅; largest := 0; largest_count := 0; song_id := -1;
     largest_matches := [] |}.

(** [diff_counter[diff][sid]] where it is defined; the loop only reads it
    after it has stored it. *)
Definition counter_at (dc : gmap Z (gmap Z Z)) (diff sid : Z) : Z :=
  default 0 (dc !! diff ≫= (.!! sid)).

(** The three statements that count a vote:
    [if diff not in diff_counter: diff_counter[diff] = {}],
    [if sid not in diff_counter[diff]: diff_counter[diff][sid] = 0],
    [diff_counter[diff][sid] += 1]. *)
Definition count_vote (dc0 : gmap Z (gmap Z Z)) (sid diff : Z)
    : gmap Z (gmap Z Z) :=
  let dc1 := if decide (dc0 !! diff = None) then <[diff := ∅]> dc0 else dc0 in
  let row1 := default ∅ (dc1 !! diff) in
  let dc2 :=
    if decide (row1 !! sid = None) then <[diff := <[sid := 0]> row1]> dc1
    else dc1 in
  let row2 := default ∅ (dc2 !! diff) in
  <[diff := <[sid := counter_at dc2 diff sid + 1]> row2]> dc2.

(** One iteration of [for tup in matches]. *)
Definition vote (st : AlignState) (tup : Z * Z) : AlignState :=
  let '(sid, diff) := tup in
  let dc := count_vote (diff_counter st) sid diff in
  if decide (largest_count st < counter_at dc diff sid) then
    {| diff_counter := dc;
       largest := diff;
       largest_count := counter_at dc diff sid;
       song_id := sid;
       largest_matches :=
         PyDict.set sid
           {| Entry.count := counter_at dc diff sid; Entry.diff := diff |}
           (largest_matches st) |}
  else
    {| diff_counter := dc;
       largest := largest st;
       largest_count := largest_count st;
       song_id := song_id st;
       largest_matches := largest_matches st |}.

(** The whole loop. *)
Definition tally (matches : list (Z * Z)) : AlignState :=
  foldl vote align_init matches.

(** [if song:] on what [get_song_by_id] returned: [None] and the empty dict
    are false. *)
Definition truthy (song : option SongRec) : bool :=
  match song with
  | Some d => bool_decide (d ≠ ∅)
  | None => false
  end.

(** [round(float(diff) / DEFAULT_FS * DEFAULT_WINDOW_SIZE *
    DEFAULT_OVERLAP_RATIO, 5)] *)
Definition nseconds (diff : Z) : Q :=
  py_round
    (inject_Z diff / inject_Z DEFAULT_FS * inject_Z DEFAULT_WINDOW_SIZE
     * DEFAULT_OVERLAP_RATIO)%Q 5.

(** [distance >= 0.1] *)
Definition at_least_tenth (distance : Q) : bool := Qle_bool (1 # 10) distance.

(** The test of the fallback loop, with its division. *)
Definition accepts (st : AlignState) (key : Z) (e : Entry.t) : outcome bool :=
  match true_div (Entry.count e) (largest_count st) with
  | Raise err => Raise err
  | Return distance =>
      Return (at_least_tenth distance && bool_decide (song_id st ≠ key))
  end.

(** The dict appended for an accepted key whose record is [rec]. *)
Definition fallback_dict (rec : SongRec) (key : Z) (e : Entry.t)
    : Fallback.t :=
  {| Fallback.song_id := key;
     Fallback.song_name := rec !! SONG_NAME;
     Fallback.song_duration := rec !! SONG_DURATION;
     Fallback.creative_id := rec !! CREATIVE_ID;
     Fallback.confidence := Entry.count e;
     Fallback.offset_seconds := nseconds (Entry.diff e);
     Fallback.file_sha1 := rec !! FIELD_FILE_SHA1 |}.

(** [song_fallback = self.db.get_song_by_id(key)] and the dict built from it;
    [song_fallback.get] raises on [None]. *)
Definition fallback_record (song_fallback : option SongRec) (key : Z)
    (e : Entry.t) : outcome Fallback.t :=
  match song_fallback with
  | None => Raise AttributeError
  | Some rec => Return (fallback_dict rec key e)
  end.

(** [for key in largest_matches: ...], appending to [accepted_fallbacks]. *)
Fixpoint fallback_loop `{Database DB} (db : DB) (st : AlignState)
    (entries : list (Z * Entry.t)) (accepted_fallbacks : list Fallback.t)
    : outcome (list Fallback.t) :=
  match entries with
  | [] => Return accepted_fallbacks
  | (key, e) :: rest =>
      match accepts st key e with
      | Raise err => Raise err
      | Return false => fallback_loop db st rest accepted_fallbacks
      | Return true =>
          match fallback_record (get_song_by_id db key) key e with
          | Raise err => Raise err
          | Return fb => fallback_loop db st rest (accepted_fallbacks ++ [fb])
          end
      end
  end.

Definition align_matches `{Database DB} (db : DB) (matches : list (Z * Z))
    : outcome (option Match.t) :=
  let st := tally matches in
  let song := get_song_by_id db (song_id st) in
  if truthy song then
    let rec := default ∅ song in
    match fallback_loop db st (largest_matches st) [] with
    | Raise err => Raise err
    | Return accepted_fallbacks =>
        Return (Some
          {| Match.song_id := song_id st;
             Match.song_name := rec !! SONG_NAME;
             Match.song_duration := rec !! SONG_DURATION;
             Match.creative_id := rec !! CREATIVE_ID;
             Match.confidence := largest_count st;
             Match.offset := largest st;
             Match.offset_seconds := nseconds (largest st);
             Match.file_sha1 := rec !! FIELD_FILE_SHA1;
             Match.fallback_matches := accepted_fallbacks |})
    end
  else Return None.

(** ** The ingestion driver *)

(** A decoded PCM channel. *)
Abbreviation Channel := (list Z).

(** What the [limit] argument of the worker can hold: [None], a number of
    seconds, or a string (see [unpack]). *)
Inductive PyLimit : Type :=
  | LimitNone
  | LimitSeconds (n : Z)
  | LimitStr (s : string).

(** The first positional argument of [_fingerprint_worker]: the pool sends a
    [(filename, limit)] tuple, [fingerprint_file] a plain path. *)
Inductive WorkerArg : Type :=
  | ArgTuple (filename : string) (limit : PyLimit)
  | ArgPath (filename : string).

(** The decoder, the fingerprinter and the run-time library, as the driver
    calls them. *)
Class Environment := {
  (** [decoder.find_files(path, extensions)], yielding [(filename, ext)] *)
  find_files : string → list string → list (string * string);
  (** [decoder.unique_hash(filename)] *)
  unique_hash : string → outcome string;
  (** [decoder.path_to_songname(filepath)] *)
  path_to_songname : string → string;
  (** [decoder.read(filename, limit)], giving [(channels, Fs, file_hash)] *)
  read : string → PyLimit → outcome (list Channel * Z * string);
  (** [fingerprint.fingerprint(channel, Fs=Fs)], a function of its input *)
  fingerprint : Channel → Z → list Hash;
  (** [f = sf.SoundFile(filepath); '{}'.format(len(f) / f.samplerate)] *)
  soundfile_duration : string → outcome string;
  (** [os.path.splitext(os.path.basename(filename))[0]] *)
  splitext_basename : string → string;
  (** [multiprocessing.cpu_count()]; [None] is [NotImplementedError] *)
  cpu_count : option Z;
  (** the order in which [pool.imap_unordered] hands the results of its
      tasks back, for a pool of the given size *)
  completion_order :
    Z →
    list (outcome (string * gset Hash * string)) →
    list (outcome (string * gset Hash * string));
}.

(** What the run leaves behind outside the object: lines on stdout and the
    store calls that returned, in order. *)
Inductive event : Type :=
  | Print (line : string)
  | PrintTraceback (e : exn)
  | InsertSong (song_name file_hash : string)
      (duration creative_id : option string) (sid : Z)
  | InsertHashes (sid : Z) (hashes : gset Hash)
  | SetSongFingerprinted (sid : Z).

(** The attributes of a [Dejavu] object, with the trace of the run. *)
Record Dejavu (DB : Type) := mkDejavu {
  db : DB;
  limit : PyLimit;
  songs : list SongRec;
  songhashes_set : gset string;
  trace : list event;
}.
Arguments mkDejavu {DB}.
Arguments db {DB}.
Arguments limit {DB}.
Arguments songs {DB}.
Arguments songhashes_set {DB}.
Arguments trace {DB}.

(** Methods: the object goes in, the outcome and the object come out. *)
Definition Method (DB A : Type) : Type := Dejavu DB → outcome A * Dejavu DB.

Definition method_ret {DB A} (a : A) : Method DB A := λ self, (Return a, self).

Definition method_bind {DB A B} (m : Method DB A) (k : A → Method DB B)
    : Method DB B :=
  λ self,
    match m self with
    | (Return a, self') => k a self'
    | (Raise e, self') => (Raise e, self')
    end.

Definition raise {DB A} (e : exn) : Method DB A := λ self, (Raise e, self).

(** A call outside the object that may raise. *)
Definition call {DB A} (o : outcome A) : Method DB A := λ self, (o, self).

Definition get_self {DB} : Method DB (Dejavu DB) := λ self, (Return self, self).

Definition emit {DB} (ev : event) : Method DB () :=
  λ self,
    (Return (),
     mkDejavu (db self) (limit self) (songs self) (songhashes_set self)
       (trace self ++ [ev])).

Declare Scope method_scope.
Delimit Scope method_scope with method.
Notation "x <- m ;; k" := (method_bind m (λ x, k))
  (at level 100, m at next level, right associativity) : method_scope.
Notation "m ;; k" := (method_bind m (λ _, k))
  (at level 100, right associativity) : method_scope.
Local Open Scope method_scope.

(** A store write: the store of the object is replaced; the call is recorded
    when it returns. *)
Definition store_call {DB A} (op : DB → outcome A * DB) (ev : A → event)
    : Method DB A :=
  λ self,
    let '(r, db') := op (db self) in
    match r with
    | Return a =>
        (Return a,
         mkDejavu db' (limit self) (songs self) (songhashes_set self)
           (trace self ++ [ev a]))
    | Raise e =>
        (Raise e,
         mkDejavu db' (limit self) (songs self) (songhashes_set self)
           (trace self))
    end.

(** [x or y] on an optional string: [None] and the empty string are false. *)
Definition py_or (x : option string) (y : string) : string :=
  match x with
  | Some s => if decide (s = "") then y else s
  | None => y
  end.

(** [for song in self.songs: self.songhashes_set.add(song[FIELD_FILE_SHA1])] *)
Fixpoint add_song_hashes {DB} (rows : list SongRec) : Method DB () :=
  match rows with
  | [] => method_ret ()
  | song :: rest =>
      match song !! FIELD_FILE_SHA1 with
      | None => raise (KeyError FIELD_FILE_SHA1)
      | Some song_hash =>
          (λ self,
             (Return (),
              mkDejavu (db self) (limit self) (songs self)
                ({[song_hash]} ∪ songhashes_set self) (trace self)));;
          add_song_hashes rest
      end
  end.

Definition get_fingerprinted_songs `{Database DB} : Method DB () :=
  λ self,
    let rows := get_songs (db self) in
    add_song_hashes rows
      (mkDejavu (db self) (limit self) rows ∅ (trace self)).

(** [try: filename, limit = filename / except ValueError: pass]: a tuple is
    unpacked, and so is a path of exactly two characters. *)
Definition unpack (filename : WorkerArg) (limit : PyLimit)
    : string * PyLimit :=
  match filename with
  | ArgTuple f l => (f, l)
  | ArgPath (String a (String b EmptyString)) =>
      (String a EmptyString, LimitStr (String b EmptyString))
  | ArgPath s => (s, limit)
  end.

(** The loop over the channels: [result |= set(hashes)]. *)
Definition channel_hashes `{Environment} (channels : list Channel) (Fs : Z)
    : gset Hash :=
  foldl (λ result channel, result ∪ list_to_set (fingerprint channel Fs))
    ∅ channels.

Definition _fingerprint_worker `{Environment} (filename : WorkerArg)
    (limit : PyLimit) (song_name : option string)
    : outcome (string * gset Hash * string) :=
  let '(filename, limit) := unpack filename limit in
  let songname := splitext_basename filename in
  let song_name := py_or song_name songname in
  match read filename limit with
  | Raise e => Raise e
  | Return (channels, Fs, file_hash) =>
      Return (song_name, channel_hashes channels Fs, file_hash)
  end.

(** The first loop of [fingerprint_directory]: files whose content hash is
    already known are reported and left out. *)
Fixpoint select_files `{Environment} {DB} (files : list (string * string))
    (filenames_to_fingerprint : list string) : Method DB (list string) :=
  match files with
  | [] => method_ret filenames_to_fingerprint
  | (filename, _) :: rest =>
      h <- call (unique_hash filename);;
      self <- get_self;;
      if decide (h ∈ songhashes_set self) then
        emit (Print (filename ++ " already fingerprinted, continuing..."));;
        select_files rest filenames_to_fingerprint
      else select_files rest (filenames_to_fingerprint ++ [filename])
  end.

(** The [while True:] loop over [iterator.next()].  An exhausted iterator
    ends it; a result is stored; [multiprocessing.TimeoutError] is retried in
    silence, [StopIteration] ends the loop, any other exception of a worker is
    printed and the loop goes on. *)
Fixpoint collect `{Database DB}
    (iterator : list (outcome (string * gset Hash * string)))
    : Method DB () :=
  match iterator with
  | [] => method_ret ()
  | Raise TimeoutError :: rest => collect rest
  | Raise StopIteration :: _ => method_ret ()
  | Raise e :: rest =>
      emit (Print "Failed fingerprinting");;
      emit (PrintTraceback e);;
      collect rest
  | Return (song_name, hashes, file_hash) :: rest =>
      sid <- store_call (λ d, insert_song d song_name file_hash None None)
               (InsertSong song_name file_hash None None);;
      store_call (λ d, insert_hashes d sid hashes)
        (λ _, InsertHashes sid hashes);;
      store_call (λ d, set_song_fingerprinted d sid)
        (λ _, SetSongFingerprinted sid);;
      get_fingerprinted_songs;;
      collect rest
  end.

(** The size of the pool: [nprocesses or multiprocessing.cpu_count()], [1]
    on [NotImplementedError] and for a size that is not positive. *)
Definition pool_size `{Environment} (nprocesses : option Z) : Z :=
  let wanted :=
    match nprocesses with
    | Some n => if decide (n = 0) then cpu_count else Some n
    | None => cpu_count
    end in
  match wanted with
  | None => 1
  | Some n => if decide (n ≤ 0) then 1 else n
  end.

(** The workers run in the pool; what the driver sees of it is the order of
    the results. *)
Definition fingerprint_directory `{Environment} `{Database DB}
    (path : string) (extensions : list string) (nprocesses : option Z)
    : Method DB () :=
  filenames_to_fingerprint <- select_files (find_files path extensions) [];;
  self <- get_self;;
  let worker_input :=
    zip filenames_to_fingerprint
      (replicate (length filenames_to_fingerprint) (limit self)) in
  let iterator :=
    completion_order (pool_size nprocesses)
      (map (λ a, _fingerprint_worker (ArgTuple a.1 a.2) LimitNone None)
         worker_input) in
  collect iterator.

Definition fingerprint_file `{Environment} `{Database DB}
    (filepath : string) (song_name creative_id : option string)
    : Method DB () :=
  let songname := path_to_songname filepath in
  song_hash <- call (unique_hash filepath);;
  let song_name := py_or song_name songname in
  duration <- call (soundfile_duration filepath);;
  self <- get_self;;
  if decide (song_hash ∈ songhashes_set self) then
    raise (Exception (song_name ++ " already fingerprinted."))
  else
    r <- call (_fingerprint_worker (ArgPath filepath) (limit self)
                 (Some song_name));;
    let '(song_name, hashes, file_hash) := r in
    sid <- store_call
             (λ d, insert_song d song_name file_hash (Some duration)
                     creative_id)
             (InsertSong song_name file_hash (Some duration) creative_id);;
    store_call (λ d, insert_hashes d sid hashes)
      (λ _, InsertHashes sid hashes);;
    store_call (λ d, set_song_fingerprinted d sid)
      (λ _, SetSongFingerprinted sid);;
    get_fingerprinted_songs.

(** ** The constructor *)

(** The [config] dict, by the three keys that [__init__] reads with
    [config.get]; a key that is absent is [None]. *)
Record Config (Kwargs : Type) := mkConfig {
  database_type : option string;
  database : option Kwargs;
  fingerprint_limit : option PyLimit;
}.
Arguments mkConfig {Kwargs}.
Arguments database_type {Kwargs}.
Arguments database {Kwargs}.
Arguments fingerprint_limit {Kwargs}.

(** [dejavu.database] as the constructor calls it: [get_database] gives the
    store class for a type name, the class is called on the keyword
    arguments ([{}] when the config has none), and [setup] prepares the
    store.  Each of the three may raise. *)
Class DatabaseModule (Kwargs DB : Type) := {
  empty_kwargs : Kwargs;
  get_database : option string → outcome (Kwargs → outcome DB);
  setup : DB → outcome () * DB;
}.

(** [Dejavu.__init__]: the store is built and set up, [self.limit] is read
    from the config with [-1] turned into [None], and the cache of content
    hashes is filled.  [self.songs] and [self.songhashes_set] do not exist
    before [get_fingerprinted_songs] assigns them. *)
Definition __init__ `{DatabaseModule Kwargs DB} `{Database DB}
    (config : Config Kwargs) : outcome (Dejavu DB) :=
  match get_database (database_type config) with
  | Raise e => Raise e
  | Return db_cls =>
      match db_cls (default empty_kwargs (database config)) with
      | Raise e => Raise e
      | Return d =>
          match setup d with
          | (Raise e, _) => Raise e
          | (Return _, d') =>
              let limit := default LimitNone (fingerprint_limit config) in
              let limit :=
                match limit with
                | LimitSeconds n => if decide (n = -1) then LimitNone else limit
                | _ => limit
                end in
              match get_fingerprinted_songs (mkDejavu d' limit [] ∅ []) with
              | (Return _, self) => Return self
              | (Raise e, _) => Raise e
              end
          end
      end
  end.

(** ** [chunkify] *)

(** [lst[i::n]] for [0 <= i] and [0 < n]: the elements at the indices [i],
    [i + n], [i + 2n], ... below [len(lst)], in order. *)
Definition slice_from_step {A} (lst : list A) (i n : nat) : list A :=
  omap (λ j, lst !! j)
    (filter (λ j, (i ≤ j)%nat ∧ Nat.modulo (j - i) n = 0%nat)
       (seq 0 (length lst))).

(** [[lst[i::n] for i in range(n)]]; [range(n)] is empty for [n <= 0], so the
    slice is only taken with a positive step. *)
Definition chunkify {A} (lst : list A) (n : Z) : list (list A) :=
  (λ i, slice_from_step lst i (Z.to_nat n)) <$> seq 0 (Z.to_nat n).

(** ** Binary64

    What the same expressions give when Python evaluates them in floats.
    A float is the rational it denotes; [to_float] rounds a rational to 53
    significant bits, ties to even.  The exponent range is not modelled: the
    quantities at stake are quotients of counts and seconds of offsets, far
    from overflow and underflow. *)

(** [n] is the integer nearest to [p / q], the even one of two. *)
Definition nearest_even (p q n : Z) : Prop :=
  - q ≤ 2 * (p - n * q) ≤ q ∧
  (Z.abs (2 * (p - n * q)) = q → Z.even n = true).

(** The integer nearest to [x], ties to even. *)
Definition rne (x : Q) : Z := round_half_even (Qnum x) (Zpos (Qden x)).

Definition pow2 (e : Z) : Q := (2 ^ e)%Q.

(** The exponent [L] with [2^L <= x < 2^(L+1)], for [0 < x]. *)
Definition floor_log2 (x : Q) : Z :=
  let s := Z.max 0 (Z.log2 (Zpos (Qden x)) + 1 - Z.log2 (Qnum x)) in
  Z.log2 (Qfloor (x * inject_Z (2 ^ s))) - s.

(** The float nearest to [x]. *)
Definition to_float (x : Q) : Q :=
  if Qeq_bool x 0 then 0%Q
  else
    let e := floor_log2 (Qabs x) - 52 in
    (inject_Z (rne (x / pow2 e)) * pow2 e)%Q.


(** [count / largest_count >= 0.1]: the quotient of two integers is rounded
    once, and [0.1] is the float nearest to one tenth. *)
Definition at_least_tenth_binary64 (count largest_count : Z) : bool :=
  Qle_bool (to_float (1 # 10))
    (to_float (inject_Z count / inject_Z largest_count)).

(** ** The histogram, the leads and the traces *)

(** The number of votes in the cell [(sid, diff)] of the histogram. *)
Definition cell_count (matches : list (Z * Z)) (sid diff : Z) : Z :=
  Z.of_nat (length (filter (λ tup, tup = (sid, diff)) matches)).

(** The largest count over all cells, [0] without votes. *)
Definition max_count (matches : list (Z * Z)) : Z :=
  foldr Z.max 0 ((λ tup, cell_count matches tup.1 tup.2) <$> matches).

(** A song's own best: the largest count over its cells. *)
Definition song_best (matches : list (Z * Z)) (sid : Z) : Z :=
  foldr Z.max 0
    ((λ tup, cell_count matches sid tup.2)
       <$> filter (λ tup, tup.1 = sid) matches).

(** The vote at the end of [pre] is for [sid] and lifts its cell above every
    count seen before it: the [if] of the loop fires. *)
Definition takes_lead (pre : list (Z * Z)) (sid diff : Z) : Prop :=
  max_count pre < cell_count (pre ++ [(sid, diff)]) sid diff.

(** A table entry that passes the test of the fallback loop, in integers:
    not the winner, and at least a tenth of the winning count. *)
Definition within_tenth (st : AlignState) (key : Z) (e : Entry.t) : Prop :=
  key ≠ song_id st ∧ largest_count st ≤ 10 * Entry.count e.

#[global] Instance within_tenth_dec st key e : Decision (within_tenth st key e)
  := and_dec (not_dec (decide (key = song_id st)))
       (decide (largest_count st ≤ 10 * Entry.count e)).

(** What the fallback loop appends for one table entry when the store knows
    the song. *)
Definition fallback_of `{Database DB} (db : DB) (st : AlignState)
    (entry : Z * Entry.t) : option Fallback.t :=
  if decide (within_tenth st entry.1 entry.2) then
    (λ rec, fallback_dict rec entry.1 entry.2) <$> get_song_by_id db entry.1
  else None.



(** The table entry [e] of [sid] is the last lead that [sid] took: a vote for
    [(sid, diff)] took the lead with [count] votes in its cell, and no later
    vote for [sid] took the lead again. *)
Definition last_lead (matches : list (Z * Z)) (sid : Z) (e : Entry.t) : Prop :=
  ∃ pre post,
    matches = pre ++ (sid, Entry.diff e) :: post ∧
    takes_lead pre sid (Entry.diff e) ∧
    Entry.count e =
      cell_count (pre ++ [(sid, Entry.diff e)]) sid (Entry.diff e) ∧
    ∀ post1 d post2,
      post = post1 ++ (sid, d) :: post2 →
      ¬ takes_lead (pre ++ (sid, Entry.diff e) :: post1) sid d.

(** [sid] took the lead at some vote. *)
Definition ever_led (matches : list (Z * Z)) (sid : Z) : Prop :=
  ∃ pre diff post,
    matches = pre ++ (sid, diff) :: post ∧ takes_lead pre sid diff.



(** The object after more lines and store calls were recorded. *)
Definition with_trace {DB} (self : Dejavu DB) (more : list event) : Dejavu DB :=
  mkDejavu (db self) (limit self) (songs self) (songhashes_set self)
    (trace self ++ more).

(** The content hash of the file is in [songhashes_set]. *)
Definition already_fingerprinted `{Environment} (songhashes : gset string)
    (filename : string) : bool :=
  match unique_hash filename with
  | Return h => bool_decide (h ∈ songhashes)
  | Raise _ => false
  end.

(** The line printed for a file that is left out. *)
Definition notice (filename : string) : event :=
  Print (filename ++ " already fingerprinted, continuing...").

(** The flag of a song is set right after the whole hash set of one worker
    result was inserted under the id that [insert_song] gave for that
    result. *)
Definition flag_after_hashes (result : string * gset Hash * string → Prop)
    (tr : list event) : Prop :=
  ∀ tr1 sid tr2,
    tr = tr1 ++ SetSongFingerprinted sid :: tr2 →
    ∃ tr0 song_name file_hash duration creative_id hashes,
      tr1 = tr0 ++ [InsertSong song_name file_hash duration creative_id sid;
                    InsertHashes sid hashes] ∧
      result (song_name, hashes, file_hash).

(** The shape of what the driver records: lines, and per stored result the
    three store calls in order, the last group cut short if a call failed. *)
Inductive ingest_trace (result : string * gset Hash * string → Prop)
    : list event → Prop :=
  | ingest_done : ingest_trace result []
  | ingest_print line tr :
      ingest_trace result tr → ingest_trace result (Print line :: tr)
  | ingest_traceback e tr :
      ingest_trace result tr → ingest_trace result (PrintTraceback e :: tr)
  | ingest_song name file_hash duration creative sid :
      ingest_trace result [InsertSong name file_hash duration creative sid]
  | ingest_hashes name file_hash duration creative sid hashes :
      ingest_trace result
        [InsertSong name file_hash duration creative sid;
         InsertHashes sid hashes]
  | ingest_flag name file_hash duration creative sid hashes tr :
      result (name, hashes, file_hash) →
      ingest_trace result tr →
      ingest_trace result
        (InsertSong name file_hash duration creative sid
         :: InsertHashes sid hashes :: SetSongFingerprinted sid :: tr).

(** The content hashes that the rows of the store carry. *)
Definition row_hashes (rows : list SongRec) : gset string :=
  list_to_set (omap (.!! FIELD_FILE_SHA1) rows).

(** A store call, as opposed to a line on stdout. *)
Definition is_store_call (ev : event) : bool :=
  match ev with
  | Print _ | PrintTraceback _ => false
  | _ => true
  end.

(** The store calls of a run, in order. *)
Definition store_calls (tr : list event) : list event :=
  filter (λ ev, is_store_call ev) tr.
Arguments store_calls : simpl never.

(** What [iterator.next()] hands over is a result, not an exception. *)
Definition is_result {A} (x : outcome A) : bool :=
  match x with
  | Return _ => true
  | Raise _ => false
  end.

(** Two objects that differ at most in what was printed: the same store,
    limit and cache, and the same store calls made. *)
Definition same_but_prints {DB} (self1 self2 : Dejavu DB) : Prop :=
  db self1 = db self2 ∧ limit self1 = limit self2 ∧
  songs self1 = songs self2 ∧ songhashes_set self1 = songhashes_set self2 ∧
  store_calls (trace self1) = store_calls (trace self2).

(** ** A store and an environment to run the driver on *)

(** Modelled from the spec: a store in memory with the interface of the
    engine's store: song records by [song_id], the hash index rows and the
    set of flagged songs.  It never fails. *)
Record MemStore := mkStore {
  song_table : gmap Z SongRec;
  hash_index : gset (Hash * Z);
  fingerprinted : gset Z;
}.

Definition fresh_id (table : gmap Z SongRec) : Z :=
  1 + foldr Z.max 0 (elements (dom table)).

Definition optional_field (key : string) (v : option string) (rec : SongRec)
    : SongRec :=
  match v with
  | Some s => <[key := s]> rec
  | None => rec
  end.

#[global] Instance MemStore_database : Database MemStore := {|
  get_songs st := (map_to_list (song_table st)).*2;
  get_song_by_id st sid := song_table st !! sid;
  insert_song st name file_hash duration creative :=
    let sid := fresh_id (song_table st) in
    let rec :=
      optional_field SONG_DURATION duration
        (optional_field CREATIVE_ID creative
           (<[SONG_NAME := name]> {[FIELD_FILE_SHA1 := file_hash]})) in
    (Return sid,
     mkStore (<[sid := rec]> (song_table st)) (hash_index st)
       (fingerprinted st));
  insert_hashes st sid hashes :=
    (Return (),
     mkStore (song_table st)
       (hash_index st ∪ set_map (λ h : Hash, (h, sid)) hashes)
       (fingerprinted st));
  set_song_fingerprinted st sid :=
    (Return (),
     mkStore (song_table st) (hash_index st) ({[sid]} ∪ fingerprinted st));
|}.

(** A small environment: every file decodes to two equal channels, hashes to
    its own name, and a channel's hashes are its samples under one token. *)
Definition toy_environment (files : list (string * string)) : Environment := {|
  find_files _ _ := files;
  unique_hash filename := Return filename;
  path_to_songname filepath := filepath;
  read filename _ := Return ([[3; 1; 3]; [3; 1; 3]], DEFAULT_FS, filename);
  fingerprint channel _ := (λ x, ("token", x)) <$> channel;
  soundfile_duration _ := Return "1.5";
  splitext_basename filename := filename;
  cpu_count := Some 4;
  completion_order _ results := results;
|}.

Definition empty_store : MemStore := mkStore ∅ ∅ ∅.

(** Two songs, [1] and [2]. *)
Definition two_song_store : MemStore :=
  mkStore
    (<[1 := {[SONG_NAME := "A"]}]> (<[2 := {[SONG_NAME := "B"]}]> ∅)) ∅ ∅.

(** Song [1] gets a vote, song [2] gets two, song [1] gets its second. *)
Definition tied_votes : list (Z * Z) := [(1, 0); (2, 0); (2, 0); (1, 0)].

Definition tied_votes_match : Match.t :=
  {| Match.song_id := 2; Match.song_name := Some "B";
     Match.song_duration := None; Match.creative_id := None;
     Match.confidence := 2; Match.offset := 0;
     Match.offset_seconds := 0 # 100000; Match.file_sha1 := None;
     Match.fallback_matches :=
       [ {| Fallback.song_id := 1; Fallback.song_name := Some "A";
            Fallback.song_duration := None; Fallback.creative_id := None;
            Fallback.confidence := 1;
            Fallback.offset_seconds := 0 # 100000;
            Fallback.file_sha1 := None |} ] |}.

(** Song [1] gets two votes, then song [2] gets one. *)
Definition runner_up_votes : list (Z * Z) := [(1, 0); (1, 0); (2, 0)].

Definition runner_up_match : Match.t :=
  {| Match.song_id := 1; Match.song_name := Some "A";
     Match.song_duration := None; Match.creative_id := None;
     Match.confidence := 2; Match.offset := 0;
     Match.offset_seconds := 0 # 100000; Match.file_sha1 := None;
     Match.fallback_matches := [] |}.


(** Only song [2]. *)
Definition one_song_store : MemStore :=
  mkStore {[2 := {[SONG_NAME := "B"]}]} ∅ ∅.

(** A store that keeps a record under the id [-1]. *)
Definition minus_one_store : MemStore :=
  mkStore {[(-1) := {[SONG_NAME := "untitled"]}]} ∅ ∅.

Definition new_dejavu (st : MemStore) : Dejavu MemStore :=
  mkDejavu st LimitNone [] ∅ [].

(** The object after [a.wav] was ingested into the empty store. *)
Definition dejavu_with_a : Dejavu MemStore :=
  (fingerprint_file (H := toy_environment []) "a.wav" None None
     (new_dejavu empty_store)).2.

(** A store module with one class, which builds the empty store in memory
    whatever the type name and the keyword arguments. *)
Definition MemStore_module : DatabaseModule () MemStore := {|
  empty_kwargs := ();
  get_database _ := Return (λ _, Return empty_store);
  setup d := (Return (), d);
|}.

(** The small environment with one file, [bad], that can be neither hashed
    nor decoded. *)
Definition unreadable_environment (files : list (string * string))
    (bad : string) : Environment := {|
  find_files _ _ := files;
  unique_hash filename :=
    if decide (filename = bad) then Raise (DecodeError bad)
    else Return filename;
  path_to_songname filepath := filepath;
  read filename _ :=
    if decide (filename = bad) then Raise (DecodeError bad)
    else Return ([[3; 1; 3]; [3; 1; 3]], DEFAULT_FS, filename);
  fingerprint channel _ := (λ x, ("token", x)) <$> channel;
  soundfile_duration _ := Return "1.5";
  splitext_basename filename := filename;
  cpu_count := Some 4;
  completion_order _ results := results;
|}.

(** The votes of [tied_votes] with the two votes for song [2] first. *)
Definition tied_votes_reordered : list (Z * Z) :=
  [(2, 0); (2, 0); (1, 0); (1, 0)].

Definition tied_votes_reordered_match : Match.t :=
  {| Match.song_id := 2; Match.song_name := Some "B";
     Match.song_duration := None; Match.creative_id := None;
     Match.confidence := 2; Match.offset := 0;
     Match.offset_seconds := 0 # 100000; Match.file_sha1 := None;
     Match.fallback_matches := [] |}.

(** The votes of [runner_up_votes] with the vote for song [2] in the middle. *)
Definition runner_up_votes_reordered : list (Z * Z) :=
  [(1, 0); (2, 0); (1, 0)].

(** A worker that could not decode its file, then one result. *)
Definition one_failure_one_result
    : list (outcome (string * gset Hash * string)) :=
  [Raise (DecodeError "b.wav"); Return ("a", ∅, "a.wav")].

(** * Properties *)

(** ** Insertion-ordered dictionaries *)

Section PyDictFacts.
Context {V : Type}.
Implicit Types (k : Z) (v : V) (d : list (Z * V)).

Lemma PyDict_get_set_eq k v d : PyDict.get k (PyDict.set k v d) = Some v.
Proof.
  induction d as [|[k' v'] d IH]; simpl.
  - by rewrite decide_True.
  - destruct (decide (k' = k)) as [->|Hne]; simpl.
    + by rewrite decide_True.
    + by rewrite decide_False.
Qed.

Lemma PyDict_get_set_ne k k' v d :
  k ≠ k' → PyDict.get k' (PyDict.set k v d) = PyDict.get k' d.
Proof.
  intros Hne. induction d as [|[k0 v0] d IH]; simpl.
  - by rewrite decide_False.
  - destruct (decide (k0 = k)) as [->|Hne0]; simpl.
    + by rewrite !decide_False.
    + destruct (decide (k0 = k')); done.
Qed.

Lemma PyDict_keys_set k v d :
  k ∈ PyDict.keys d → PyDict.keys (PyDict.set k v d) = PyDict.keys d.
Proof.
  unfold PyDict.keys. induction d as [|[k0 v0] d IH]; cbn [PyDict.set].
  - by intros ?%elem_of_nil.
  - rewrite fmap_cons. intros Hin.
    destruct (decide (k0 = k)) as [->|Hne0]; rewrite !fmap_cons; [done|].
    apply elem_of_cons in Hin as [->|Hin]; [done|]. simpl. f_equal. auto.
Qed.

Lemma PyDict_keys_set_new k v d :
  k ∉ PyDict.keys d → PyDict.keys (PyDict.set k v d) = PyDict.keys d ++ [k].
Proof.
  unfold PyDict.keys. induction d as [|[k0 v0] d IH]; cbn [PyDict.set];
    [done|].
  rewrite fmap_cons. intros Hnotin.
  apply not_elem_of_cons in Hnotin as [Hne Hnotin].
  rewrite decide_False by done. rewrite fmap_cons. simpl. f_equal. auto.
Qed.

Lemma PyDict_keys_nodup_set k v d :
  NoDup (PyDict.keys d) → NoDup (PyDict.keys (PyDict.set k v d)).
Proof.
  intros Hnd. destruct (decide (k ∈ PyDict.keys d)) as [Hin|Hnotin].
  - by rewrite PyDict_keys_set.
  - rewrite PyDict_keys_set_new by done.
    apply NoDup_app. split_and!; [done| |apply NoDup_singleton].
    intros x Hx ->%list_elem_of_singleton. done.
Qed.

Lemma PyDict_get_None k d : PyDict.get k d = None ↔ k ∉ PyDict.keys d.
Proof.
  unfold PyDict.keys. induction d as [|[k0 v0] d IH]; simpl.
  - split; [intros _ ?%elem_of_nil; done|done].
  - rewrite not_elem_of_cons. destruct (decide (k0 = k)) as [->|Hne0].
    + split; [done|]. by intros [? _].
    + rewrite IH. split; [by intros ?|by intros [_ ?]].
Qed.

Lemma PyDict_elem_of_get k v d :
  NoDup (PyDict.keys d) → (k, v) ∈ d ↔ PyDict.get k d = Some v.
Proof.
  unfold PyDict.keys. induction d as [|[k0 v0] d IH]; simpl; intros Hnd.
  - split; [by intros ?%elem_of_nil|done].
  - apply NoDup_cons in Hnd as [Hnotin Hnd].
    rewrite elem_of_cons. destruct (decide (k0 = k)) as [->|Hne0].
    + split.
      * intros [[= ->]|Hin]; [done|].
        exfalso. apply Hnotin. apply list_elem_of_fmap. by exists (k, v).
      * intros [= ->]. by left.
    + rewrite <- IH by done. split.
      * intros [[= -> ->]|Hin]; done.
      * by right.
Qed.

End PyDictFacts.

(** ** The histogram *)

Lemma cell_count_nil sid diff : cell_count [] sid diff = 0.
Proof. done. Qed.

Lemma cell_count_app p q sid diff :
  cell_count (p ++ q) sid diff = cell_count p sid diff + cell_count q sid diff.
Proof. unfold cell_count. rewrite filter_app, length_app. lia. Qed.

Lemma cell_count_single tup sid diff :
  cell_count [tup] sid diff = if decide (tup = (sid, diff)) then 1 else 0.
Proof.
  unfold cell_count. rewrite filter_cons, filter_nil.
  by destruct (decide (tup = (sid, diff))).
Qed.

Lemma cell_count_snoc p tup sid diff :
  cell_count (p ++ [tup]) sid diff =
  cell_count p sid diff + if decide (tup = (sid, diff)) then 1 else 0.
Proof. by rewrite cell_count_app, cell_count_single. Qed.

Lemma cell_count_nonneg p sid diff : 0 ≤ cell_count p sid diff.
Proof. unfold cell_count. lia. Qed.

Lemma cell_count_pos p sid diff : 0 < cell_count p sid diff ↔ (sid, diff) ∈ p.
Proof.
  unfold cell_count. induction p as [|tup p IH].
  - simpl. split; [lia|by intros ?%elem_of_nil].
  - rewrite filter_cons, elem_of_cons.
    destruct (decide (tup = (sid, diff))) as [->|Hne]; simpl.
    + split; [by left|lia].
    + rewrite IH. split; [by right|]. intros [Heq|?]; [|done].
      by destruct Hne.
Qed.

Lemma cell_count_mono p q sid diff :
  cell_count p sid diff ≤ cell_count (p ++ q) sid diff.
Proof. rewrite cell_count_app. pose proof (cell_count_nonneg q sid diff). lia. Qed.

Lemma foldr_max_ge (l : list Z) x : x ∈ l → x ≤ foldr Z.max 0 l.
Proof.
  induction l as [|y l IH]; simpl.
  - by intros ?%elem_of_nil.
  - intros [->|Hin]%elem_of_cons; [lia|]. specialize (IH Hin). lia.
Qed.

Lemma foldr_max_nonneg (l : list Z) : 0 ≤ foldr Z.max 0 l.
Proof. induction l as [|y l IH]; simpl; lia. Qed.

Lemma foldr_max_attained (l : list Z) :
  foldr Z.max 0 l = 0 ∨ foldr Z.max 0 l ∈ l.
Proof.
  induction l as [|y l IH]; simpl; [by left|].
  destruct (Z.max_spec y (foldr Z.max 0 l)) as [[_ ->]|[_ ->]].
  - destruct IH as [->|Hin]; [by left|right; by right].
  - right; by left.
Qed.

Lemma max_count_ge p sid diff : cell_count p sid diff ≤ max_count p.
Proof.
  unfold max_count. destruct (decide ((sid, diff) ∈ p)) as [Hin|Hnotin].
  - apply foldr_max_ge, list_elem_of_fmap. by exists (sid, diff).
  - pose proof (proj1 (cell_count_pos p sid diff)).
    pose proof (cell_count_nonneg p sid diff).
    pose proof (foldr_max_nonneg
      ((λ tup, cell_count p tup.1 tup.2) <$> p)).
    destruct (decide (0 < cell_count p sid diff)); [tauto|lia].
Qed.

Lemma max_count_nil : max_count [] = 0.
Proof. done. Qed.

(** A bound that some cell attains is the maximum. *)
Lemma max_count_unique p m sid diff :
  (∀ s d, cell_count p s d ≤ m) → cell_count p sid diff = m → max_count p = m.
Proof.
  intros Hub Hat. apply Z.le_antisymm.
  - unfold max_count.
    destruct (foldr_max_attained ((λ tup, cell_count p tup.1 tup.2) <$> p))
      as [->|Hin].
    + rewrite <- Hat. apply cell_count_nonneg.
    + apply list_elem_of_fmap in Hin as [tup [-> _]]. apply Hub.
  - rewrite <- Hat. apply max_count_ge.
Qed.


Lemma song_best_le_max p sid : song_best p sid ≤ max_count p.
Proof.
  unfold song_best.
  destruct (foldr_max_attained
    ((λ tup, cell_count p sid tup.2) <$> filter (λ tup, tup.1 = sid) p))
    as [->|Hin].
  - apply foldr_max_nonneg.
  - apply list_elem_of_fmap in Hin as [tup [-> _]]. apply max_count_ge.
Qed.


(** ** The voting loop *)

Lemma counter_at_insert dc diff (row : gmap Z Z) d s :
  counter_at (<[diff := row]> dc) d s =
  if decide (diff = d) then default 0 (row !! s) else counter_at dc d s.
Proof.
  unfold counter_at. destruct (decide (diff = d)) as [<-|Hne].
  - by rewrite lookup_insert_eq.
  - by rewrite lookup_insert_ne.
Qed.

Lemma counter_at_row dc diff s :
  default 0 (default ∅ (dc !! diff) !! s) = counter_at dc diff s.
Proof. unfold counter_at. by destruct (dc !! diff). Qed.

Lemma count_vote_at dc sid diff s d :
  counter_at (count_vote dc sid diff) d s =
  counter_at dc d s + if decide ((sid, diff) = (s, d)) then 1 else 0.
Proof.
  unfold count_vote.
  set (dc1 := if decide (dc !! diff = None) then <[diff := ∅]> dc else dc).
  assert (Hdc1 : ∀ d' s', counter_at dc1 d' s' = counter_at dc d' s').
  { intros d' s'. subst dc1. case_decide as Hnone; [|done].
    rewrite counter_at_insert. case_decide as Hd; [subst d'|done].
    unfold counter_at. by rewrite Hnone. }
  set (row1 := default ∅ (dc1 !! diff)).
  set (dc2 := if decide (row1 !! sid = None)
              then <[diff := <[sid := 0]> row1]> dc1 else dc1).
  assert (Hdc2 : ∀ d' s', counter_at dc2 d' s' = counter_at dc d' s').
  { intros d' s'. subst dc2. case_decide as Hnone; [|done].
    rewrite counter_at_insert. case_decide as Hd; [subst d'|done].
    rewrite <- Hdc1, <- counter_at_row. fold row1.
    destruct (decide (sid = s')) as [->|Hs].
    - by rewrite lookup_insert_eq, Hnone.
    - by rewrite lookup_insert_ne. }
  rewrite counter_at_insert.
  destruct (decide ((sid, diff) = (s, d))) as [[= <- <-]|Hne].
  - rewrite decide_True by done. rewrite lookup_insert_eq. simpl.
    by rewrite Hdc2.
  - case_decide as Hd; [subst d|by rewrite Hdc2, Z.add_0_r].
    rewrite lookup_insert_ne by congruence.
    rewrite counter_at_row, Hdc2. lia.
Qed.

Lemma tally_snoc p tup : tally (p ++ [tup]) = vote (tally p) tup.
Proof. unfold tally. by rewrite foldl_snoc. Qed.

(** The nested dict holds the histogram. *)
Lemma tally_counter p sid diff :
  counter_at (diff_counter (tally p)) diff sid = cell_count p sid diff.
Proof.
  revert sid diff. induction p as [|[s0 d0] p IH] using rev_ind; intros sid diff.
  - done.
  - rewrite tally_snoc, cell_count_snoc, <- IH. unfold vote.
    case_decide; simpl; apply count_vote_at.
Qed.

(** What one more vote does to the variables of the loop. *)
Lemma tally_vote p sid diff :
  let st := tally p in
  let st' := tally (p ++ [(sid, diff)]) in
  let c := cell_count (p ++ [(sid, diff)]) sid diff in
  (largest_count st < c ∧
   largest st' = diff ∧ largest_count st' = c ∧ song_id st' = sid ∧
   largest_matches st' =
     PyDict.set sid (Entry.mk c diff) (largest_matches st))
  ∨
  (c ≤ largest_count st ∧
   largest st' = largest st ∧ largest_count st' = largest_count st ∧
   song_id st' = song_id st ∧ largest_matches st' = largest_matches st).
Proof.
  intros st st' c.
  assert (Hc : counter_at (count_vote (diff_counter st) sid diff) diff sid = c).
  { subst c st. rewrite count_vote_at, tally_counter, cell_count_snoc.
    done. }
  subst st'. rewrite tally_snoc. fold st. unfold vote. rewrite Hc.
  case_decide; simpl; [left|right]; split_and!; try done. lia.
Qed.

Lemma tally_bound p sid diff : cell_count p sid diff ≤ largest_count (tally p).
Proof.
  revert sid diff. induction p as [|[s0 d0] p IH] using rev_ind; intros sid diff.
  - done.
  - pose proof (IH sid diff) as Hold. pose proof (IH s0 d0) as Hold0.
    rewrite cell_count_snoc in *.
    destruct (tally_vote p s0 d0) as [(Hlt & _ & -> & _)|(Hle & _ & -> & _)];
      rewrite cell_count_snoc in *; repeat case_decide; simplify_eq; lia.
Qed.

Lemma tally_winner_cell p :
  p ≠ [] →
  cell_count p (song_id (tally p)) (largest (tally p)) =
  largest_count (tally p).
Proof.
  induction p as [|[s0 d0] p IH] using rev_ind; intros Hne; [done|].
  destruct (tally_vote p s0 d0)
    as [(Hlt & -> & -> & -> & _)|(Hle & -> & -> & -> & _)]; [done|].
  destruct (decide (p = [])) as [->|Hp].
  - simpl in Hle. rewrite cell_count_single, decide_True in Hle by done.
    change (largest_count (tally [])) with 0 in Hle. lia.
  - rewrite cell_count_snoc, IH by done.
    case_decide as Heq; [|lia]. simplify_eq.
    rewrite cell_count_snoc, decide_True in Hle by done.
    rewrite IH in Hle by done. lia.
Qed.

(** [largest_count] is the largest count of the histogram. *)
Lemma tally_largest_count p : largest_count (tally p) = max_count p.
Proof.
  destruct (decide (p = [])) as [->|Hne]; [done|].
  symmetry. eapply max_count_unique.
  - apply tally_bound.
  - by apply tally_winner_cell.
Qed.

Lemma tally_largest_count_pos p : p ≠ [] → 1 ≤ largest_count (tally p).
Proof.
  intros Hne. destruct p as [|[s d] p]; [done|].
  pose proof (tally_bound ((s, d) :: p) s d) as Hb.
  assert (0 < cell_count ((s, d) :: p) s d) by (apply cell_count_pos; left).
  lia.
Qed.


(** ** The per-song table [largest_matches] *)

Lemma snoc_eq_split {A} (post post1 post2 : list A) x y :
  post ++ [x] = post1 ++ y :: post2 →
  (post2 = [] ∧ post = post1 ∧ x = y) ∨
  (∃ post2', post2 = post2' ++ [x] ∧ post = post1 ++ y :: post2').
Proof.
  destruct post2 as [|z post2 _] using rev_ind; intros Heq.
  - apply app_inj_tail in Heq as [-> ->]. by left.
  - change (post1 ++ y :: post2 ++ [z]) with (post1 ++ (y :: post2) ++ [z])
      in Heq.
    rewrite app_assoc in Heq. apply app_inj_tail in Heq as [-> ->].
    right. by exists post2.
Qed.

Lemma takes_lead_tally p sid diff :
  takes_lead p sid diff ↔
  largest_count (tally p) < cell_count (p ++ [(sid, diff)]) sid diff.
Proof. unfold takes_lead. by rewrite tally_largest_count. Qed.

Lemma tally_table_nodup p : NoDup (PyDict.keys (largest_matches (tally p))).
Proof.
  induction p as [|[s0 d0] p IH] using rev_ind; [apply NoDup_nil_2|].
  destruct (tally_vote p s0 d0) as [(_ & _ & _ & _ & ->)|(_ & _ & _ & _ & ->)];
    [by apply PyDict_keys_nodup_set|done].
Qed.

(** An entry of the table records the last lead its song took. *)
Lemma tally_table p sid e :
  PyDict.get sid (largest_matches (tally p)) = Some e → last_lead p sid e.
Proof.
  revert e. induction p as [|[s0 d0] p IH] using rev_ind; intros e; [done|].
  destruct (tally_vote p s0 d0)
    as [(Hlt & _ & _ & _ & ->)|(Hle & _ & _ & _ & ->)].
  - destruct (decide (s0 = sid)) as [->|Hne].
    + rewrite PyDict_get_set_eq. intros [= <-]. simpl.
      exists p, []. split_and!; [done| |done|].
      * by apply takes_lead_tally.
      * intros post1 d post2 Heq. by destruct post1.
    + rewrite PyDict_get_set_ne by done. intros Hget.
      destruct (IH e Hget) as (pre & post & -> & Hlead & Hcnt & Hlast).
      exists pre, (post ++ [(s0, d0)]). split_and!; [|done|done|].
      * by rewrite <- app_assoc.
      * intros post1 d post2 [(_ & _ & [= ? ?])|(post2' & -> & ->)]%snoc_eq_split;
          [done|by eapply Hlast].
  - intros Hget.
    destruct (IH e Hget) as (pre & post & -> & Hlead & Hcnt & Hlast).
    exists pre, (post ++ [(s0, d0)]). split_and!; [|done|done|].
    + by rewrite <- app_assoc.
    + intros post1 d post2 [(_ & -> & [= -> ->])|(post2' & -> & ->)]%snoc_eq_split;
        [|by eapply Hlast].
      rewrite takes_lead_tally. lia.
Qed.

(** A song is in the table exactly when it took the lead at some vote. *)
Lemma tally_table_keys p sid :
  sid ∈ PyDict.keys (largest_matches (tally p)) ↔ ever_led p sid.
Proof.
  split.
  - intros Hin. destruct (PyDict.get sid (largest_matches (tally p)))
      as [e|] eqn:Hget.
    + destruct (tally_table p sid e Hget) as (pre & post & ? & ? & _).
      by exists pre, (Entry.diff e), post.
    + by apply PyDict_get_None in Hget.
  - induction p as [|[s0 d0] p IH] using rev_ind.
    + intros (pre & d & post & Heq & _). by destruct pre.
    + intros (pre & d & post & Heq & Hlead).
      assert (Hkeep : sid ∈ PyDict.keys (largest_matches (tally p)) →
                sid ∈ PyDict.keys (largest_matches (tally (p ++ [(s0, d0)])))).
      { intros Hin.
        destruct (tally_vote p s0 d0)
          as [(_ & _ & _ & _ & ->)|(_ & _ & _ & _ & ->)]; [|done].
        destruct (decide (s0 ∈ PyDict.keys (largest_matches (tally p)))).
        - by rewrite PyDict_keys_set.
        - rewrite PyDict_keys_set_new by done. apply elem_of_app. by left. }
      apply snoc_eq_split in Heq as [(-> & -> & [= -> ->])|(post' & -> & ->)].
      * apply takes_lead_tally in Hlead.
        destruct (tally_vote pre sid d)
          as [(_ & _ & _ & _ & ->)|(Hle & _)]; [|lia].
        apply dec_stable. intros Hnotin%PyDict_get_None.
        by rewrite PyDict_get_set_eq in Hnotin.
      * apply Hkeep, IH. by exists pre, d, post'.
Qed.

(** The recorded count is that of a real cell of the song: at least one vote,
    at most what the cell holds in the end. *)
Lemma last_lead_bounds p sid e :
  last_lead p sid e →
  1 ≤ Entry.count e ≤ cell_count p sid (Entry.diff e).
Proof.
  intros (pre & post & -> & Hlead & -> & _). unfold takes_lead in Hlead.
  pose proof (max_count_ge pre sid (Entry.diff e)).
  pose proof (cell_count_nonneg pre sid (Entry.diff e)).
  split; [lia|].
  change (pre ++ (sid, Entry.diff e) :: post)
    with (pre ++ [(sid, Entry.diff e)] ++ post).
  rewrite app_assoc. apply cell_count_mono.
Qed.


Lemma tally_table_nonempty p key e :
  (key, e) ∈ largest_matches (tally p) → p ≠ [].
Proof. intros Hin ->. by apply elem_of_nil in Hin. Qed.

(** ** The fallback loop *)

Lemma at_least_tenth_div c lc :
  0 < lc →
  at_least_tenth (inject_Z c / inject_Z lc) = bool_decide (lc ≤ 10 * c).
Proof.
  intros Hpos. unfold at_least_tenth.
  destruct lc as [|q|q]; [lia| |lia].
  symmetry. destruct (Qle_bool _ _) eqn:Hq.
  - apply bool_decide_eq_true. apply Qle_bool_iff in Hq. revert Hq.
    unfold Qle, Qdiv, Qinv, Qmult, inject_Z. simpl. lia.
  - apply bool_decide_eq_false. intros Hle.
    apply not_true_iff_false in Hq. apply Hq, Qle_bool_iff.
    unfold Qle, Qdiv, Qinv, Qmult, inject_Z. simpl. lia.
Qed.

Lemma accepts_within_tenth st key e :
  0 < largest_count st →
  accepts st key e = Return (bool_decide (within_tenth st key e)).
Proof.
  intros Hpos. unfold accepts, true_div.
  rewrite decide_False by lia. rewrite at_least_tenth_div by done.
  f_equal. apply eq_true_iff_eq.
  rewrite andb_true_iff, !bool_decide_eq_true. unfold within_tenth.
  split; intros [? ?]; split; congruence.
Qed.

Section FallbackLoop.
Context `{Database DB} (db : DB) (st : AlignState).
Hypothesis Hpos : 0 < largest_count st.

(** An accepted key without a record makes the loop raise. *)
Lemma fallback_loop_raise entries acc key e :
  (key, e) ∈ entries → within_tenth st key e → get_song_by_id db key = None →
  fallback_loop db st entries acc = Raise AttributeError.
Proof.
  intros Hin Hwt Hnone. revert acc.
  induction entries as [|[k0 e0] rest IH]; intros acc;
    [by apply elem_of_nil in Hin|].
  simpl. rewrite accepts_within_tenth by done.
  apply elem_of_cons in Hin as [[= <- <-]|Hin].
  - rewrite bool_decide_eq_true_2 by done. by rewrite Hnone.
  - case_bool_decide; [|by apply IH].
    destruct (get_song_by_id db k0); simpl; [by apply IH|done].
Qed.

(** When the loop returns, every accepted key had a record and the list is
    the table filtered in iteration order. *)
Lemma fallback_loop_inv entries acc l :
  fallback_loop db st entries acc = Return l →
  l = acc ++ omap (fallback_of db st) entries ∧
  ∀ key e, (key, e) ∈ entries → within_tenth st key e →
    is_Some (get_song_by_id db key).
Proof.
  revert acc. induction entries as [|[k0 e0] rest IH]; intros acc; simpl.
  - intros [= <-]. split; [by rewrite app_nil_r|].
    by intros ?? ?%elem_of_nil.
  - rewrite accepts_within_tenth by done. unfold fallback_of at 1. simpl.
    case_bool_decide as Hwt.
    + rewrite decide_True by done.
      destruct (get_song_by_id db k0) as [rec|] eqn:Hget; simpl; [|done].
      intros [-> Hall]%IH. split; [by rewrite <- app_assoc|].
      intros key e [[= -> ->]|Hin]%elem_of_cons ?; [by rewrite Hget|eauto].
    + rewrite decide_False by done.
      intros [-> Hall]%IH. split; [done|].
      intros key e [[= -> ->]|Hin]%elem_of_cons ?; [done|eauto].
Qed.

(** The loop returns as soon as every accepted key has a record. *)
Lemma fallback_loop_return entries acc :
  (∀ key e, (key, e) ∈ entries → within_tenth st key e →
     is_Some (get_song_by_id db key)) →
  fallback_loop db st entries acc =
  Return (acc ++ omap (fallback_of db st) entries).
Proof.
  revert acc. induction entries as [|[k0 e0] rest IH]; intros acc Hall; simpl.
  - by rewrite app_nil_r.
  - rewrite accepts_within_tenth by done. unfold fallback_of at 1. simpl.
    case_bool_decide as Hwt.
    + rewrite decide_True by done.
      destruct (Hall k0 e0) as [rec Hget]; [by left|done|].
      rewrite Hget. simpl. rewrite IH; [by rewrite <- app_assoc|].
      intros key e Hin. apply Hall. by right.
    + rewrite decide_False by done. apply IH.
      intros key e Hin. apply Hall. by right.
Qed.

End FallbackLoop.

Lemma elem_of_omap_fallback_of `{Database DB} (db : DB) st
    (entries : list (Z * Entry.t)) fb :
  fb ∈ omap (fallback_of db st) entries ↔
  ∃ key e rec,
    (key, e) ∈ entries ∧ within_tenth st key e ∧
    get_song_by_id db key = Some rec ∧ fb = fallback_dict rec key e.
Proof.
  rewrite list_elem_of_omap. split.
  - intros ([key e] & Hin & Hfb). unfold fallback_of in Hfb. simpl in Hfb.
    case_decide; [|done].
    destruct (get_song_by_id db key) as [rec|] eqn:Hget; [|done].
    simpl in Hfb. injection Hfb as <-. by exists key, e, rec.
  - intros (key & e & rec & Hin & Hwt & Hget & ->). exists (key, e).
    split; [done|]. unfold fallback_of. simpl.
    rewrite decide_True by done. by rewrite Hget.
Qed.

(** ** [align_matches] as a whole *)

(** The fallback loop never divides by zero: the table is empty when there
    is no vote. *)
Lemma align_fallback_loop `{Database DB} (db : DB) matches l :
  fallback_loop db (tally matches) (largest_matches (tally matches)) [] =
    Return l →
  l = omap (fallback_of db (tally matches)) (largest_matches (tally matches)) ∧
  ∀ key e, (key, e) ∈ largest_matches (tally matches) →
    within_tenth (tally matches) key e → is_Some (get_song_by_id db key).
Proof.
  destruct (decide (matches = [])) as [->|Hne].
  - simpl. intros [= <-]. split; [done|]. by intros ?? ?%elem_of_nil.
  - intros Hloop. eapply fallback_loop_inv in Hloop as [-> ?]; [done|].
    pose proof (tally_largest_count_pos matches Hne). lia.
Qed.

Lemma align_matches_inv `{Database DB} (db : DB) matches r :
  align_matches db matches = Return (Some r) →
  ∃ rec,
    get_song_by_id db (song_id (tally matches)) = Some rec ∧ rec ≠ ∅ ∧
    r = {| Match.song_id := song_id (tally matches);
           Match.song_name := rec !! SONG_NAME;
           Match.song_duration := rec !! SONG_DURATION;
           Match.creative_id := rec !! CREATIVE_ID;
           Match.confidence := largest_count (tally matches);
           Match.offset := largest (tally matches);
           Match.offset_seconds := nseconds (largest (tally matches));
           Match.file_sha1 := rec !! FIELD_FILE_SHA1;
           Match.fallback_matches :=
             omap (fallback_of db (tally matches))
               (largest_matches (tally matches)) |} ∧
    ∀ key e, (key, e) ∈ largest_matches (tally matches) →
      within_tenth (tally matches) key e → is_Some (get_song_by_id db key).
Proof.
  unfold align_matches, truthy.
  destruct (get_song_by_id db (song_id (tally matches))) as [rec|]; [|done].
  case_bool_decide as Hrec; [|done]. simpl.
  destruct (fallback_loop _ _ _ _) as [l|err] eqn:Hloop; [|done].
  apply align_fallback_loop in Hloop as [-> Hall].
  intros [= <-]. by exists rec.
Qed.

(** ** The primary result *)



(** Two cells tie at two votes; the winner is the cell that got its second
    vote first, not the cell that got the first vote of the list. *)
Example tie_goes_to_first_to_reach :
  let st := tally tied_votes in
  (song_id st, largest st, largest_count st) = (2, 0, 2) ∧
  cell_count tied_votes 1 0 = 2.
Proof. by vm_compute. Qed.

(** ** The per-song table and the fallbacks *)







(** ** No match *)

Lemma tally_nil_song_id : song_id (tally []) = -1.
Proof. done. Qed.

(** C4, as stated, fails.  Without votes the loop leaves [song_id] at [-1]
    and the store is asked for that id; a store that answers makes the call
    return a record with no votes behind it. *)
Lemma empty_votes_can_match :
  align_matches minus_one_store [] =
  Return (Some
    {| Match.song_id := -1; Match.song_name := Some "untitled";
       Match.song_duration := None; Match.creative_id := None;
       Match.confidence := 0; Match.offset := 0;
       Match.offset_seconds := 0 # 100000; Match.file_sha1 := None;
       Match.fallback_matches := [] |}).
Proof. vm_compute; reflexivity. Qed.

(** C4, amended. For the empty vote list [align_matches] returns no match,
    without raising, whenever the store has no record (or an empty one)
    under the id [-1], the initial value of [song_id]. *)
Theorem align_matches_empty `{Database DB} (db : DB) :
  truthy (get_song_by_id db (-1)) = false →
  align_matches db [] = Return None.
Proof. intros Hfalse. unfold align_matches. simpl. by rewrite Hfalse. Qed.

Lemma align_matches_empty_witness :
  truthy (get_song_by_id two_song_store (-1)) = false ∧
  align_matches two_song_store [] = Return None.
Proof.
  split; [vm_compute; reflexivity|].
  apply (align_matches_empty two_song_store). vm_compute; reflexivity.
Defined.

(** C5. If the store has no record for the winning [song_id], the call
    returns no match, whatever the votes. *)
Theorem align_matches_missing_winner `{Database DB} (db : DB) matches :
  get_song_by_id db (song_id (tally matches)) = None →
  align_matches db matches = Return None.
Proof. intros Hnone. unfold align_matches. by rewrite Hnone. Qed.

Lemma align_matches_missing_winner_witness :
  get_song_by_id empty_store (song_id (tally tied_votes)) = None ∧
  align_matches empty_store tied_votes = Return None.
Proof.
  split; [vm_compute; reflexivity|].
  apply (align_matches_missing_winner empty_store tied_votes).
  vm_compute; reflexivity.
Defined.

(** ** Fallbacks without a record *)

(** C10. The winner's lookup is guarded, the fallbacks' lookups are not.
    When the winner has a record, the call raises [AttributeError] as soon
    as one entry that passes the fallback test has no record in the store;
    it returns a record exactly when every such entry has one. *)
Theorem align_matches_fallback_lookup `{Database DB} (db : DB) matches :
  truthy (get_song_by_id db (song_id (tally matches))) = true →
  ((∃ key e,
      (key, e) ∈ largest_matches (tally matches) ∧
      key ≠ song_id (tally matches) ∧
      largest_count (tally matches) ≤ 10 * Entry.count e ∧
      get_song_by_id db key = None) →
   align_matches db matches = Raise AttributeError) ∧
  ((∀ key e,
      (key, e) ∈ largest_matches (tally matches) →
      key ≠ song_id (tally matches) →
      largest_count (tally matches) ≤ 10 * Entry.count e →
      is_Some (get_song_by_id db key)) ↔
   ∃ r, align_matches db matches = Return (Some r)).
Proof.
  intros Htrue. split; [|split].
  - intros (key & e & Hin & Hkey & Hcount & Hnone).
    unfold align_matches. rewrite Htrue.
    erewrite fallback_loop_raise; [done| |done| |done].
    + pose proof (tally_largest_count_pos matches
        (tally_table_nonempty _ _ _ Hin)). lia.
    + by split.
  - intros Hall. unfold align_matches. rewrite Htrue.
    destruct (decide (matches = [])) as [->|Hne]; [simpl; eauto|].
    rewrite fallback_loop_return; [eauto| |].
    + pose proof (tally_largest_count_pos matches Hne). lia.
    + intros key e Hin [? ?]. eauto.
  - intros [r (_ & _ & _ & _ & Hall)%align_matches_inv] key e Hin ? ?.
    by apply (Hall key e).
Qed.

Lemma align_matches_fallback_lookup_witness :
  truthy (get_song_by_id one_song_store (song_id (tally tied_votes))) = true ∧
  align_matches one_song_store tied_votes = Raise AttributeError.
Proof.
  split; [vm_compute; reflexivity|].
  refine (proj1 (align_matches_fallback_lookup one_song_store tied_votes _) _).
  - vm_compute; reflexivity.
  - exists 1, (Entry.mk 1 0). split_and!.
    + vm_compute. apply list_elem_of_here.
    + vm_compute. discriminate.
    + vm_compute. discriminate.
    + vm_compute; reflexivity.
Defined.

(** * The worker *)

Lemma channel_hashes_from `{Environment} (channels : list Channel) (Fs : Z)
    (acc : gset Hash) (h : Hash) :
  h ∈ foldl (λ result channel, result ∪ list_to_set (fingerprint channel Fs))
        acc channels ↔
  h ∈ acc ∨ ∃ c, c ∈ channels ∧ h ∈ fingerprint c Fs.
Proof.
  revert acc. induction channels as [|c0 channels IH]; intros acc; simpl.
  - split; [by left|]. intros [?|(c & ?%elem_of_nil & _)]; done.
  - rewrite IH, elem_of_union, elem_of_list_to_set. split.
    + intros [[?|?]|(c & ? & ?)]; [by left|right..].
      * exists c0. split; [by left|done].
      * exists c. split; [by right|done].
    + intros [?|(c & [->|?]%elem_of_cons & ?)]; [by left; left| |].
      * left; by right.
      * right. by exists c.
Qed.

(** The hash set of a file is the union of its channels' hashes. *)
Lemma channel_hashes_union `{Environment} (channels : list Channel) (Fs : Z)
    (h : Hash) :
  h ∈ channel_hashes channels Fs ↔
  ∃ c, c ∈ channels ∧ h ∈ fingerprint c Fs.
Proof.
  unfold channel_hashes. rewrite channel_hashes_from. split.
  - intros [?%not_elem_of_empty|?]; done.
  - by right.
Qed.

Lemma channel_hashes_mono `{Environment} (c : Channel) (Fs : Z) :
  channel_hashes [c] Fs = list_to_set (fingerprint c Fs).
Proof. unfold channel_hashes. simpl. by rewrite (left_id_L ∅ (∪)). Qed.

(** C9. When all decoded channels of a file are the same channel, the worker
    returns the hash set of that one channel alone; in general the set is
    the union over the channels, a hash met in several channels being held
    once. *)
Theorem worker_identical_channels `{Environment} (filename : WorkerArg)
    (limit : PyLimit) (song_name : option string)
    (channels : list Channel) (Fs : Z) (file_hash : string) (c : Channel) :
  read (unpack filename limit).1 (unpack filename limit).2 =
    Return (channels, Fs, file_hash) →
  channels ≠ [] →
  (∀ c', c' ∈ channels → c' = c) →
  (∃ name,
     _fingerprint_worker filename limit song_name =
       Return (name, channel_hashes [c] Fs, file_hash)) ∧
  channel_hashes [c] Fs = list_to_set (fingerprint c Fs) ∧
  (∀ h, h ∈ channel_hashes channels Fs ↔
        ∃ c', c' ∈ channels ∧ h ∈ fingerprint c' Fs).
Proof.
  intros Hread Hne Hsame. split_and!.
  - unfold _fingerprint_worker.
    destruct (unpack filename limit) as [f l]. simpl in Hread.
    rewrite Hread. eexists. do 2 f_equal. f_equal.
    apply set_eq. intros h. rewrite !channel_hashes_union. split.
    + intros (c' & Hin & Hh). exists c. rewrite (Hsame c' Hin) in Hh.
      split; [apply list_elem_of_here|done].
    + intros (c' & ->%list_elem_of_singleton & Hh).
      destruct channels as [|c0 channels]; [done|].
      exists c0. split; [by left|]. rewrite (Hsame c0); [done|by left].
  - apply channel_hashes_mono.
  - intros h. apply channel_hashes_union.
Qed.

Lemma worker_identical_channels_witness :
  channel_hashes (H := toy_environment []) [[3; 1; 3]; [3; 1; 3]] DEFAULT_FS =
  channel_hashes (H := toy_environment []) [[3; 1; 3]] DEFAULT_FS ∧
  ∃ name,
    _fingerprint_worker (H := toy_environment []) (ArgPath "a.wav") LimitNone
      None =
    Return (name, channel_hashes (H := toy_environment []) [[3; 1; 3]]
                    DEFAULT_FS, "a.wav").
Proof.
  split; [vm_compute; reflexivity|].
  refine (proj1 (worker_identical_channels (H := toy_environment [])
    (ArgPath "a.wav") LimitNone None [[3; 1; 3]; [3; 1; 3]] DEFAULT_FS
    "a.wav" [3; 1; 3] _ _ _)).
  - reflexivity.
  - discriminate.
  - intros c' Hin. repeat (apply elem_of_cons in Hin as [->|Hin]; [done|]).
    by apply elem_of_nil in Hin.
Defined.

(** * The ingestion driver *)

Section Driver.
Context `{Environment} `{Database DB}.
Implicit Types (self : Dejavu DB).

Lemma with_trace_nil self : with_trace self [] = self.
Proof. destruct self. unfold with_trace. simpl. by rewrite app_nil_r. Qed.

Lemma with_trace_app self tr1 tr2 :
  with_trace (with_trace self tr1) tr2 = with_trace self (tr1 ++ tr2).
Proof. unfold with_trace. simpl. by rewrite app_assoc. Qed.

(** Refreshing the cache of content hashes leaves the store, the limit and
    the trace alone. *)
Lemma add_song_hashes_frame rows self :
  db (add_song_hashes rows self).2 = db self ∧
  limit (add_song_hashes rows self).2 = limit self ∧
  trace (add_song_hashes rows self).2 = trace self.
Proof.
  revert self. induction rows as [|song rows IH]; intros self; simpl; [done|].
  destruct (song !! FIELD_FILE_SHA1) as [song_hash|]; [|done].
  unfold method_bind. simpl.
  by destruct (IH (mkDejavu (db self) (limit self) (songs self)
    ({[song_hash]} ∪ songhashes_set self) (trace self))) as (-> & -> & ->).
Qed.

Lemma get_fingerprinted_songs_frame self :
  db (get_fingerprinted_songs self).2 = db self ∧
  limit (get_fingerprinted_songs self).2 = limit self ∧
  trace (get_fingerprinted_songs self).2 = trace self.
Proof.
  unfold get_fingerprinted_songs.
  by destruct (add_song_hashes_frame (get_songs (db self))
    (mkDejavu (db self) (limit self) (get_songs (db self)) ∅ (trace self)))
    as (-> & -> & ->).
Qed.

(** One turn of the first loop on a file whose hash is known: a notice, and
    nothing else changes. *)
Lemma select_files_skip filename ext rest acc self h :
  unique_hash filename = Return h → h ∈ songhashes_set self →
  select_files ((filename, ext) :: rest) acc self =
  select_files rest acc (with_trace self [notice filename]).
Proof.
  intros Hhash Hin. simpl. unfold method_bind, call, get_self. rewrite Hhash.
  by rewrite decide_True.
Qed.

Lemma select_files_keep filename ext rest acc self h :
  unique_hash filename = Return h → h ∉ songhashes_set self →
  select_files ((filename, ext) :: rest) acc self =
  select_files rest (acc ++ [filename]) self.
Proof.
  intros Hhash Hin. simpl. unfold method_bind, call, get_self. rewrite Hhash.
  by rewrite decide_False.
Qed.

(** The first loop as a whole: the files with a known hash get a notice, the
    others are kept in order; the object is otherwise untouched. *)
Lemma select_files_spec (files : list (string * string)) acc self :
  (∀ f ext, (f, ext) ∈ files → ∃ h, unique_hash f = Return h) →
  select_files files acc self =
  (Return
     (acc ++
      filter (λ f, ¬ already_fingerprinted (songhashes_set self) f) files.*1),
   with_trace self
     (notice <$>
      filter (λ f, already_fingerprinted (songhashes_set self) f) files.*1)).
Proof.
  revert acc self. induction files as [|[f ext] files IH]; intros acc self Hall.
  - simpl. by rewrite app_nil_r, with_trace_nil.
  - destruct (Hall f ext) as [h Hh]; [by left|].
    assert (Hrest : ∀ f' ext', (f', ext') ∈ files →
              ∃ h', unique_hash f' = Return h').
    { intros f' ext' Hin. apply (Hall f' ext'). by right. }
    rewrite fmap_cons, !filter_cons. change ((f, ext).1) with f.
    destruct (decide (h ∈ songhashes_set self)) as [Hin|Hnotin].
    + erewrite select_files_skip by done. rewrite IH by done.
      assert (Hdup : already_fingerprinted (songhashes_set self) f = true).
      { unfold already_fingerprinted. rewrite Hh. by apply bool_decide_eq_true. }
      rewrite decide_False by (rewrite Hdup; auto).
      rewrite (decide_True (P := already_fingerprinted _ f))
        by (rewrite Hdup; exact I).
      by rewrite fmap_cons, with_trace_app.
    + erewrite select_files_keep by done. rewrite IH by done.
      assert (Hdup : already_fingerprinted (songhashes_set self) f = false).
      { unfold already_fingerprinted. rewrite Hh. by apply bool_decide_eq_false. }
      rewrite decide_True by (rewrite Hdup; auto).
      rewrite (decide_False (P := already_fingerprinted _ f))
        by (rewrite Hdup; auto).
      by rewrite <- app_assoc.
Qed.

Lemma ingest_trace_flag result tr :
  ingest_trace result tr → flag_after_hashes result tr.
Proof.
  induction 1 as [|line tr Htr IH|e tr Htr IH| | |
                  name fh dur cr sid0 hs tr Hres Htr IH];
    intros tr1 flagged tr2 Heq.
  - by destruct tr1.
  - destruct tr1 as [|ev tr1]; simplify_eq/=.
    destruct (IH _ _ _ eq_refl) as (tr0 & n & f & d & c & h & -> & ?).
    by exists (Print line :: tr0), n, f, d, c, h.
  - destruct tr1 as [|ev tr1]; simplify_eq/=.
    destruct (IH _ _ _ eq_refl) as (tr0 & n & f & d & c & h & -> & ?).
    by exists (PrintTraceback e :: tr0), n, f, d, c, h.
  - destruct tr1 as [|? [|? tr1]]; simplify_eq/=.
  - destruct tr1 as [|? [|? [|? tr1]]]; simplify_eq/=.
  - destruct tr1 as [|? [|? [|? tr1]]]; simplify_eq/=.
    + by exists [], name, fh, dur, cr, hs.
    + destruct (IH _ _ _ eq_refl) as (tr0 & n & f & d & c & h & -> & ?).
      by exists (InsertSong name fh dur cr sid0 :: InsertHashes sid0 hs
                 :: SetSongFingerprinted sid0 :: tr0), n, f, d, c, h.
Qed.

Lemma ingest_trace_weaken (result result' : string * gset Hash * string → Prop)
    tr :
  (∀ r, result r → result' r) →
  ingest_trace result tr → ingest_trace result' tr.
Proof. intros Himp. induction 1; constructor; auto. Qed.

(** What the second loop records. *)
Lemma collect_trace (iterator : list (outcome (string * gset Hash * string)))
    self :
  ∃ tr,
    trace (collect iterator self).2 = trace self ++ tr ∧
    ingest_trace (λ r, Return r ∈ iterator) tr.
Proof.
  revert self. induction iterator as [|[[[name hs] fh]|e] rest IH]; intros self.
  - exists []. simpl. split; [by rewrite app_nil_r|constructor].
  - assert (Hrest : ∀ self', ∃ tr,
      trace (collect rest self').2 = trace self' ++ tr ∧
      ingest_trace (λ r, Return r ∈ Return (name, hs, fh) :: rest) tr).
    { intros self'. destruct (IH self') as (tr & ? & Htr). exists tr.
      split; [done|]. eapply ingest_trace_weaken; [|done].
      intros r ?. by right. }
    simpl. unfold method_bind, store_call.
    destruct (insert_song (db self) name fh None None) as [[sid|e] db1]; simpl.
    2:{ exists []. split; [by rewrite app_nil_r|constructor]. }
    destruct (insert_hashes db1 sid hs) as [[[]|e] db2]; simpl.
    2:{ eexists [_]. split; [done|constructor]. }
    destruct (set_song_fingerprinted db2 sid) as [[[]|e] db3]; simpl.
    2:{ eexists [_; _]. split; [by rewrite <- app_assoc|constructor]. }
    match goal with |- context [get_fingerprinted_songs ?s] =>
      pose proof (get_fingerprinted_songs_frame s) as (_ & _ & Htrace);
      destruct (get_fingerprinted_songs s) as [[[]|e] self4]
    end; simpl in *.
    2:{ eexists [_; _; _]. split; [by rewrite Htrace, <- !app_assoc|].
        constructor; [by left|constructor]. }
    destruct (Hrest self4) as (tr & -> & Htr). rewrite Htrace.
    eexists (_ :: _ :: _ :: tr). split; [by rewrite <- !app_assoc|].
    constructor; [by left|done].
  - assert (Hrest : ∀ self', ∃ tr,
      trace (collect rest self').2 = trace self' ++ tr ∧
      ingest_trace (λ r, Return r ∈ Raise e :: rest) tr).
    { intros self'. destruct (IH self') as (tr & ? & Htr). exists tr.
      split; [done|]. eapply ingest_trace_weaken; [|done].
      intros r ?. by right. }
    destruct e; simpl; unfold method_bind; simpl;
      try (match goal with |- context [collect rest ?s] =>
             destruct (Hrest s) as (tr & -> & Htr) end;
           simpl; eexists (_ :: _ :: tr);
           split; [by rewrite <- !app_assoc|by do 2 constructor]).
    + exists []. split; [by rewrite app_nil_r|constructor].
    + apply Hrest.
Qed.

Lemma ingest_trace_lines result (lines : list string) tr :
  ingest_trace result tr → ingest_trace result ((Print <$> lines) ++ tr).
Proof. intros Htr. induction lines; simpl; [done|by constructor]. Qed.

(** The first loop only prints, whatever the decoder does. *)
Lemma select_files_frame (files : list (string * string)) acc self :
  ∃ lines,
    (select_files files acc self).2 = with_trace self (Print <$> lines) ∧
    ∀ l, (select_files files acc self).1 = Return l →
      ∀ f, f ∈ l → f ∈ acc ∨ f ∈ files.*1.
Proof.
  revert acc self. induction files as [|[f0 ext] files IH]; intros acc self.
  - exists []. simpl. rewrite with_trace_nil. split; [done|].
    intros l [= <-] f ?. by left.
  - simpl. unfold method_bind, call, get_self.
    destruct (unique_hash f0) as [h|e]; simpl.
    2:{ exists []. simpl. by rewrite with_trace_nil. }
    case_decide.
    + destruct (IH acc (with_trace self [notice f0])) as (lines & Heq & Hsub).
      exists ((f0 ++ " already fingerprinted, continuing...")%string :: lines).
      unfold emit. simpl. split.
      * etrans; [exact Heq|]. by rewrite with_trace_app.
      * intros l Hl f Hf. destruct (Hsub l Hl f Hf); [by left|right; by right].
    + destruct (IH (acc ++ [f0]) self) as (lines & Heq & Hsub).
      exists lines. split; [done|].
      intros l Hl f Hf.
      destruct (Hsub l Hl f Hf) as [Hacc|?]; [|right; by right].
      apply elem_of_app in Hacc as [?|Hf0]; [by left|].
      apply list_elem_of_singleton in Hf0 as ->. right; by left.
Qed.

Lemma zip_replicate {A B} (l : list A) (x : B) :
  zip l (replicate (length l) x) = (λ a, (a, x)) <$> l.
Proof. induction l; simpl; [done|by f_equal]. Qed.

(** What [fingerprint_file] records. *)
Lemma fingerprint_file_trace filepath song_name creative_id self :
  ∃ tr,
    trace (fingerprint_file filepath song_name creative_id self).2 =
      trace self ++ tr ∧
    ingest_trace
      (λ r, ∃ name,
         _fingerprint_worker (ArgPath filepath) (limit self) (Some name) =
           Return r) tr ∧
    ((fingerprint_file filepath song_name creative_id self).1 = Return () →
     ∃ name hashes file_hash duration sid,
       _fingerprint_worker (ArgPath filepath) (limit self)
         (Some (py_or song_name (path_to_songname filepath))) =
         Return (name, hashes, file_hash) ∧
       tr = [InsertSong name file_hash (Some duration) creative_id sid;
             InsertHashes sid hashes; SetSongFingerprinted sid]).
Proof.
  unfold fingerprint_file, method_bind, call, get_self, raise, store_call.
  destruct (unique_hash filepath) as [h|e]; simpl.
  2:{ exists []. rewrite app_nil_r. split_and!; [done|constructor|done]. }
  destruct (soundfile_duration filepath) as [d|e]; simpl.
  2:{ exists []. rewrite app_nil_r. split_and!; [done|constructor|done]. }
  case_decide; simpl.
  { exists []. rewrite app_nil_r. split_and!; [done|constructor|done]. }
  destruct (_fingerprint_worker _ _ _) as [[[name hs] fh]|e] eqn:Hworker; simpl.
  2:{ exists []. rewrite app_nil_r. split_and!; [done|constructor|done]. }
  destruct (insert_song (db self) name fh (Some d) creative_id)
    as [[sid|e] db1]; simpl.
  2:{ exists []. rewrite app_nil_r. split_and!; [done|constructor|done]. }
  destruct (insert_hashes db1 sid hs) as [[[]|e] db2]; simpl.
  2:{ eexists [_]. split_and!; [done|constructor|done]. }
  destruct (set_song_fingerprinted db2 sid) as [[[]|e] db3]; simpl.
  2:{ eexists [_; _]. split_and!; [by rewrite <- app_assoc|constructor|done]. }
  match goal with |- context [get_fingerprinted_songs ?s] =>
    pose proof (get_fingerprinted_songs_frame s) as (_ & _ & Htrace);
    destruct (get_fingerprinted_songs s) as [[[]|e] self4]
  end; simpl in *; rewrite Htrace;
    eexists [_; _; _]; (split_and!; [by rewrite <- !app_assoc| |]).
  - constructor; [eauto|constructor].
  - intros _. by exists name, hs, fh, d, sid.
  - constructor; [eauto|constructor].
  - done.
Qed.

(** What [fingerprint_directory] records, when the pool hands back nothing
    but results of its tasks. *)
Lemma fingerprint_directory_trace path extensions nprocesses self :
  (∀ n l x, x ∈ completion_order n l → x ∈ l) →
  ∃ tr,
    trace (fingerprint_directory path extensions nprocesses self).2 =
      trace self ++ tr ∧
    ingest_trace
      (λ r, ∃ f ext,
         (f, ext) ∈ find_files path extensions ∧
         _fingerprint_worker (ArgTuple f (limit self)) LimitNone None =
           Return r) tr.
Proof.
  intros Hpool. unfold fingerprint_directory, method_bind, get_self.
  destruct (select_files_frame (find_files path extensions) [] self)
    as (lines & Hself & Hsub).
  destruct (select_files (find_files path extensions) [] self)
    as [[fresh|e] self1]; simpl in *; subst self1.
  2:{ exists (Print <$> lines). split; [done|].
      rewrite <- (app_nil_r (Print <$> lines)).
      apply ingest_trace_lines. constructor. }
  rewrite zip_replicate, <- list_fmap_compose.
  match goal with |- context [collect ?it ?s] =>
    destruct (collect_trace it s) as (tr & -> & Htr) end.
  exists ((Print <$> lines) ++ tr). simpl. split; [by rewrite app_assoc|].
  apply ingest_trace_lines. eapply ingest_trace_weaken; [|done].
  intros r (f & Hr & Hin)%Hpool%list_elem_of_fmap. simpl in Hr.
  destruct (Hsub fresh eq_refl f Hin) as [?%elem_of_nil|Hf]; [done|].
  apply list_elem_of_fmap in Hf as ([f' ext] & -> & ?).
  by exists f', ext.
Qed.

(** With every content hash readable, a directory run is the second loop
    over the files with an unknown hash, started from the object as it was
    plus the notices. *)
Lemma fingerprint_directory_fresh path extensions nprocesses self :
  (∀ f ext, (f, ext) ∈ find_files path extensions →
     ∃ h, unique_hash f = Return h) →
  fingerprint_directory path extensions nprocesses self =
  collect
    (completion_order (pool_size nprocesses)
       ((λ f, _fingerprint_worker (ArgTuple f (limit self)) LimitNone None)
          <$> filter (λ f, ¬ already_fingerprinted (songhashes_set self) f)
                (find_files path extensions).*1))
    (with_trace self
       (notice <$> filter (λ f, already_fingerprinted (songhashes_set self) f)
                     (find_files path extensions).*1)).
Proof.
  intros Hall. unfold fingerprint_directory, method_bind, get_self.
  rewrite select_files_spec by done. simpl.
  by rewrite zip_replicate, <- list_fmap_compose.
Qed.

(** C7. Let the content hash of [filename] be in [songhashes_set].  Then
    [fingerprint_file] raises and leaves the object, store and hash index
    included, exactly as it was; the error is the "already fingerprinted"
    exception once the sound file could be opened.  In
    [fingerprint_directory] the turn of the first loop for that file prints
    the notice and changes nothing else, and the whole run is the ingestion
    of the files with an unknown hash only: the file is not among them and
    its notice is printed. *)
Theorem duplicate_ingest filename h self :
  unique_hash filename = Return h →
  h ∈ songhashes_set self →
  (∀ song_name creative_id,
     (∃ e, fingerprint_file filename song_name creative_id self =
           (Raise e, self)) ∧
     ∀ duration, soundfile_duration filename = Return duration →
       fingerprint_file filename song_name creative_id self =
       (Raise (Exception
          ((py_or song_name (path_to_songname filename))
           ++ " already fingerprinted.")), self)) ∧
  (∀ ext rest acc,
     select_files ((filename, ext) :: rest) acc self =
     select_files rest acc (with_trace self [notice filename])) ∧
  (∀ path extensions nprocesses,
     (∀ f ext, (f, ext) ∈ find_files path extensions →
        ∃ h', unique_hash f = Return h') →
     let files := (find_files path extensions).*1 in
     let fresh :=
       filter (λ f, ¬ already_fingerprinted (songhashes_set self) f) files in
     let known :=
       filter (λ f, already_fingerprinted (songhashes_set self) f) files in
     fingerprint_directory path extensions nprocesses self =
       collect
         (completion_order (pool_size nprocesses)
            ((λ f, _fingerprint_worker (ArgTuple f (limit self))
                     LimitNone None) <$> fresh))
         (with_trace self (notice <$> known)) ∧
     (filename ∉ fresh) ∧
     (filename ∈ files → filename ∈ known)).
Proof.
  intros Hhash Hin.
  assert (Hdup : already_fingerprinted (songhashes_set self) filename = true).
  { unfold already_fingerprinted. rewrite Hhash. by apply bool_decide_eq_true. }
  split_and!.
  - intros song_name creative_id.
    unfold fingerprint_file, method_bind, call, get_self, raise.
    rewrite Hhash. split.
    + destruct (soundfile_duration filename); simpl; [|eauto].
      rewrite decide_True by done. eauto.
    + intros duration ->. simpl. by rewrite decide_True.
  - intros ext rest acc. by eapply select_files_skip.
  - intros path extensions nprocesses Hall files fresh known.
    split; [by apply fingerprint_directory_fresh|]. split.
    + intros [Hnot _]%list_elem_of_filter. apply Hnot. by rewrite Hdup.
    + intros Hlisted. apply list_elem_of_filter. split; [|done].
      by rewrite Hdup.
Qed.

(** A directory that holds nothing new leaves the store as it was. *)
Lemma fingerprint_directory_all_known path extensions nprocesses self :
  completion_order (pool_size nprocesses) [] = [] →
  (∀ f ext, (f, ext) ∈ find_files path extensions →
     ∃ h, unique_hash f = Return h ∧ h ∈ songhashes_set self) →
  fingerprint_directory path extensions nprocesses self =
  (Return (), with_trace self (notice <$> (find_files path extensions).*1)).
Proof.
  intros Hpool Hall. unfold fingerprint_directory, method_bind, get_self.
  assert (Hselect : ∀ files acc self',
    songhashes_set self' = songhashes_set self →
    (∀ f ext, (f, ext) ∈ files →
       ∃ h, unique_hash f = Return h ∧ h ∈ songhashes_set self) →
    select_files files acc self' =
    (Return acc, with_trace self' (notice <$> files.*1))).
  { induction files as [|[f ext] files IH]; intros acc self' Hset Hknown.
    - simpl. by rewrite with_trace_nil.
    - destruct (Hknown f ext) as (h & Hh & Hin); [by left|].
      rewrite (select_files_skip f ext files acc self' h);
        [|done|by rewrite Hset].
      rewrite IH; [by rewrite with_trace_app| done |].
      intros f' ext' ?. apply (Hknown f' ext'). by right. }
  rewrite Hselect by done. simpl. by rewrite Hpool.
Qed.

(** C8. In both entry points the flag of a song is set only right after the
    whole hash set that the worker returned for its file was inserted under
    the id of that song; a run of [fingerprint_file] that returns has made
    exactly the three store calls in that order. *)
Theorem hashes_before_flag :
  (∀ filepath song_name creative_id self,
     ∃ tr,
       trace (fingerprint_file filepath song_name creative_id self).2 =
         trace self ++ tr ∧
       flag_after_hashes
         (λ r, ∃ name,
            _fingerprint_worker (ArgPath filepath) (limit self) (Some name) =
              Return r) tr ∧
       ((fingerprint_file filepath song_name creative_id self).1 =
          Return () →
        ∃ name hashes file_hash duration sid,
          _fingerprint_worker (ArgPath filepath) (limit self)
            (Some (py_or song_name (path_to_songname filepath))) =
            Return (name, hashes, file_hash) ∧
          tr = [InsertSong name file_hash (Some duration) creative_id sid;
                InsertHashes sid hashes; SetSongFingerprinted sid])) ∧
  (∀ path extensions nprocesses self,
     (∀ n l x, x ∈ completion_order n l → x ∈ l) →
     ∃ tr,
       trace (fingerprint_directory path extensions nprocesses self).2 =
         trace self ++ tr ∧
       flag_after_hashes
         (λ r, ∃ f ext,
            (f, ext) ∈ find_files path extensions ∧
            _fingerprint_worker (ArgTuple f (limit self)) LimitNone None =
              Return r) tr).
Proof.
  split.
  - intros filepath song_name creative_id self.
    destruct (fingerprint_file_trace filepath song_name creative_id self)
      as (tr & ? & ?%ingest_trace_flag & ?). by exists tr.
  - intros path extensions nprocesses self Hpool.
    destruct (fingerprint_directory_trace path extensions nprocesses self
                Hpool) as (tr & ? & ?%ingest_trace_flag). by exists tr.
Qed.

End Driver.

Lemma duplicate_ingest_witness :
  unique_hash (Environment := toy_environment []) "a.wav" = Return "a.wav" ∧
  "a.wav" ∈ songhashes_set dejavu_with_a ∧
  fingerprint_file (H := toy_environment []) "a.wav" None None dejavu_with_a =
    (Raise (Exception "a.wav already fingerprinted."), dejavu_with_a).
Proof.
  assert (Hin : "a.wav" ∈ songhashes_set dejavu_with_a).
  { apply (bool_decide_unpack _). vm_compute. exact I. }
  split; [reflexivity|]. split; [exact Hin|].
  refine (proj2 (proj1 (duplicate_ingest (H := toy_environment [])
    "a.wav" "a.wav" dejavu_with_a eq_refl Hin) None None) "1.5" eq_refl).
Defined.

(** The same file met again in a directory, next to a new one: one notice,
    and only the new file reaches the store. *)
Example duplicate_in_directory :
  let run :=
    fingerprint_directory
      (H := toy_environment [("a.wav", "wav"); ("b.wav", "wav")])
      "music" ["wav"] None dejavu_with_a in
  run.1 = Return () ∧
  drop 3 (trace run.2) =
    [ Print "a.wav already fingerprinted, continuing...";
      InsertSong "b.wav" "b.wav" None None 2;
      InsertHashes 2 {[("token", 3); ("token", 1)]};
      SetSongFingerprinted 2 ].
Proof. split; vm_compute; reflexivity. Qed.

Lemma hashes_before_flag_witness :
  (∀ n l x,
     x ∈ completion_order (Environment := toy_environment []) n l → x ∈ l) ∧
  ∃ tr,
    trace (fingerprint_directory
             (H := toy_environment [("a.wav", "wav"); ("b.wav", "wav")])
             "music" ["wav"] None dejavu_with_a).2 =
      trace dejavu_with_a ++ tr ∧
    flag_after_hashes
      (λ r, ∃ f ext,
         (f, ext) ∈ [("a.wav", "wav"); ("b.wav", "wav")] ∧
         _fingerprint_worker
           (H := toy_environment [("a.wav", "wav"); ("b.wav", "wav")])
           (ArgTuple f (limit dejavu_with_a)) LimitNone None = Return r) tr.
Proof.
  split; [by intros n l x|].
  refine (proj2 (hashes_before_flag
    (H := toy_environment [("a.wav", "wav"); ("b.wav", "wav")]))
    "music" ["wav"] None dejavu_with_a _).
  by intros n l x.
Defined.

(** * Seconds over the rationals *)



(** The value before rounding is never half way between two 5-digit
    decimals: half-even and half-up rounding agree on it. *)
Lemma nseconds_no_tie diff : 2 * ((diff * 409600000) `mod` 88200) ≠ 88200.
Proof.
  pose proof (Z.div_mod (diff * 409600000) 88200 ltac:(done)) as Hdm.
  intros Htie. lia.
Qed.

(** With the hop taken as [W * (1 - overlap_ratio)], the product of the
    source, [W * overlap_ratio], gives the same seconds exactly when the
    overlap ratio is one half (or the offset is zero). *)
Lemma overlap_or_hop (fs w diff : Z) (ratio : Q) :
  fs ≠ 0 → w ≠ 0 → diff ≠ 0 →
  (inject_Z diff / inject_Z fs * inject_Z w * ratio ==
   inject_Z diff * (inject_Z w * (1 - ratio)) / inject_Z fs)%Q ↔
  (ratio == 1 # 2)%Q.
Proof.
  intros Hfs Hw Hdiff.
  assert (Hfs' : ¬ (inject_Z fs == 0)%Q).
  { unfold Qeq. simpl. lia. }
  set (k := (inject_Z diff * inject_Z w / inject_Z fs)%Q).
  assert (Hk : ¬ (k == 0)%Q).
  { unfold k. intros Hzero.
    assert (Hnum : (inject_Z diff * inject_Z w == 0)%Q).
    { assert (Hback : (inject_Z diff * inject_Z w ==
                inject_Z diff * inject_Z w / inject_Z fs * inject_Z fs)%Q)
        by (field; done).
      rewrite Hback, Hzero. ring. }
    revert Hnum. unfold Qeq. simpl. nia. }
  assert (Hcode : (inject_Z diff / inject_Z fs * inject_Z w * ratio ==
                   k * ratio)%Q) by (unfold k; field; done).
  assert (Hspec : (inject_Z diff * (inject_Z w * (1 - ratio)) / inject_Z fs ==
                   k * (1 - ratio))%Q) by (unfold k; field; done).
  rewrite Hcode, Hspec. split.
  - intros Heq%Qmult_inj_l; [|done].
    assert (Hhalf : (ratio == (1 # 2) * (ratio + (1 - ratio)))%Q).
    { rewrite <- Heq. field. }
    rewrite Hhalf. field.
  - intros ->. ring.
Qed.

(** * Binary64 evaluation

    The rationals of the embedding against the floats of the interpreter:
    for offsets below 2^31 frames the reported seconds are the float nearest
    to the exact value, and for counts below 2^53 the test of the fallback
    loop decides as the exact one. *)

(** ** Rounding to the nearest integer *)

Lemma round_half_even_nearest p q : 0 < q → nearest_even p q (round_half_even p q).
Proof.
  intros Hq. unfold nearest_even, round_half_even.
  pose proof (Z.div_mod p q ltac:(lia)) as Hdm.
  pose proof (Z.mod_pos_bound p q Hq) as Hr.
  repeat case_decide; try (split; [nia|intros; nia]).
  - destruct (Z.even (p `div` q)) eqn:Heven.
    + split; [nia|done].
    + split; [nia|]. intros _. rewrite Z.even_add, Heven. done.
Qed.

Lemma nearest_even_unique p q n m :
  0 < q → nearest_even p q n → nearest_even p q m → n = m.
Proof.
  intros Hq [Hn Hn'] [Hm Hm'].
  assert (Hd : -1 ≤ n - m ≤ 1) by nia.
  assert (Hcase : n - m = -1 ∨ n = m ∨ n - m = 1) by lia.
  destruct Hcase as [Hc|[Hc|Hc]]; [|done|].
  - assert (Z.even n = true) by (apply Hn'; nia).
    assert (Z.even m = true) by (apply Hm'; nia).
    replace m with (n + 1) in * by lia.
    rewrite Z.even_add in *. destruct (Z.even n); done.
  - assert (Z.even n = true) by (apply Hn'; nia).
    assert (Z.even m = true) by (apply Hm'; nia).
    replace n with (m + 1) in * by lia.
    rewrite Z.even_add in *. destruct (Z.even m); done.
Qed.

Lemma nearest_even_Qeq p1 q1 p2 q2 n :
  0 < q1 → 0 < q2 → p1 * q2 = p2 * q1 →
  nearest_even p1 q1 n → nearest_even p2 q2 n.
Proof.
  intros Hq1 Hq2 Heq [Hn Hn'].
  assert (Hx : 2 * (p2 - n * q2) * q1 = 2 * (p1 - n * q1) * q2) by nia.
  split; [nia|]. intros Habs. apply Hn'. nia.
Qed.

Lemma round_half_even_Qeq p1 q1 p2 q2 :
  0 < q1 → 0 < q2 → p1 * q2 = p2 * q1 →
  round_half_even p1 q1 = round_half_even p2 q2.
Proof.
  intros Hq1 Hq2 Heq. apply (nearest_even_unique p2 q2); [done| |].
  - eapply nearest_even_Qeq; [| |done|by apply round_half_even_nearest]; done.
  - by apply round_half_even_nearest.
Qed.

Section Binary64.
Local Open Scope Q_scope.

#[global] Instance rne_proper : Proper (Qeq ==> eq) rne.
Proof.
  intros x y Hxy. unfold rne. apply round_half_even_Qeq; [done..|].
  exact Hxy.
Qed.

Lemma rne_bounds x :
  inject_Z (rne x) - (1 # 2) <= x ∧ x <= inject_Z (rne x) + (1 # 2).
Proof.
  destruct (round_half_even_nearest (Qnum x) (Zpos (Qden x)) ltac:(done))
    as [Hn _].
  fold (rne x) in Hn. destruct x as [p q]. simpl in Hn.
  unfold Qle, Qminus, Qplus, Qopp, inject_Z. simpl. split; lia.
Qed.

Lemma rne_unique x n :
  x - (1 # 2) < inject_Z n → inject_Z n < x + (1 # 2) → rne x = n.
Proof.
  intros Hlo Hhi.
  apply (nearest_even_unique (Qnum x) (Zpos (Qden x)));
    [done|by apply round_half_even_nearest|].
  destruct x as [p q]. revert Hlo Hhi.
  unfold Qlt, Qminus, Qplus, Qopp, inject_Z, nearest_even. simpl.
  intros Hlo Hhi. split; [lia|]. intros Habs. lia.
Qed.

Lemma rne_Z n : rne (inject_Z n) = n.
Proof. apply rne_unique; lra. Qed.

Lemma rne_opp x : rne (- x) = (- rne x)%Z.
Proof.
  apply (nearest_even_unique (Qnum (- x)) (Zpos (Qden (- x)))); [done| |].
  - by apply round_half_even_nearest.
  - destruct (round_half_even_nearest (Qnum x) (Zpos (Qden x)) ltac:(done))
      as [Hn Hn'].
    fold (rne x) in Hn, Hn'. destruct x as [p q]. simpl in *.
    split; [lia|]. intros Habs. rewrite Z.even_opp. apply Hn'. lia.
Qed.

Lemma rne_mono x y : x <= y → (rne x ≤ rne y)%Z.
Proof.
  intros Hxy. destruct (Z.le_gt_cases (rne x) (rne y)) as [|Hgt]; [done|].
  pose proof (rne_bounds x) as [Hx1 Hx2].
  pose proof (rne_bounds y) as [Hy1 Hy2].
  assert (Hz : inject_Z (rne y) + 1 <= inject_Z (rne x)).
  { unfold Qle, Qplus, inject_Z. simpl. lia. }
  assert (Heq : x == y) by lra.
  rewrite Heq in Hgt. lia.
Qed.

(** ** Powers of two and binades *)

Lemma pow2_pos e : 0 < pow2 e.
Proof. by apply Qpower_0_lt. Qed.

Lemma pow2_add a b : pow2 (a + b) == pow2 a * pow2 b.
Proof. by apply Qpower_plus. Qed.

Lemma pow2_succ e : pow2 (e + 1) == 2 * pow2 e.
Proof. rewrite pow2_add. unfold pow2 at 2. simpl. ring. Qed.

Lemma pow2_sub a b : pow2 (a - b) * pow2 b == pow2 a.
Proof. rewrite <- pow2_add. by replace (a - b + b)%Z with a by lia. Qed.

Lemma pow2_le a b : (a ≤ b)%Z → pow2 a <= pow2 b.
Proof. intros. by apply Qpower_le_compat_l. Qed.

Lemma pow2_lt a b : (a < b)%Z → pow2 a < pow2 b.
Proof. intros. by apply Qpower_lt_compat_l. Qed.

Lemma pow2_Z n : (0 ≤ n)%Z → inject_Z (2 ^ n) == pow2 n.
Proof. intros. by apply Zpower_Qpower. Qed.

Lemma floor_log2_spec x :
  0 < x → pow2 (floor_log2 x) <= x ∧ x < pow2 (floor_log2 x + 1).
Proof.
  intros Hx. unfold floor_log2.
  set (s := Z.max 0 (Z.log2 (Zpos (Qden x)) + 1 - Z.log2 (Qnum x))).
  set (y := x * inject_Z (2 ^ s)).
  assert (Hs : (0 ≤ s)%Z) by lia.
  assert (Hp : (0 < Qnum x)%Z).
  { revert Hx. unfold Qlt. simpl. lia. }
  assert (Hy1 : 1 <= y).
  { unfold y, Qle, Qmult, inject_Z. simpl.
    pose proof (Z.log2_spec (Qnum x) Hp) as [Hp1 _].
    pose proof (Z.log2_spec (Zpos (Qden x)) ltac:(done)) as [_ Hq2].
    assert (Hpow : (2 ^ Z.succ (Z.log2 (Zpos (Qden x)))
                    ≤ 2 ^ Z.log2 (Qnum x) * 2 ^ s)%Z).
    { rewrite <- Z.pow_add_r by (try apply Z.log2_nonneg; lia).
      apply Z.pow_le_mono_r; lia. }
    assert (0 < 2 ^ s)%Z by (apply Z.pow_pos_nonneg; lia).
    nia. }
  set (N := Qfloor y).
  assert (HN : (1 ≤ N)%Z).
  { change 1%Z with (Qfloor 1). by apply Qfloor_resp_le. }
  pose proof (Z.log2_spec N ltac:(lia)) as [HN1 HN2].
  set (l := Z.log2 N) in *.
  assert (Hl : (0 ≤ l)%Z) by apply Z.log2_nonneg.
  pose proof (Qfloor_le y) as Hfl. pose proof (Qlt_floor y) as Hlt.
  fold N in Hfl, Hlt.
  assert (Hlow : pow2 l <= y).
  { rewrite <- pow2_Z by done. eapply Qle_trans; [|exact Hfl].
    by rewrite <- Zle_Qle. }
  assert (Hhigh : y < pow2 (l + 1)).
  { rewrite <- pow2_Z by lia. eapply Qlt_le_trans; [exact Hlt|].
    rewrite <- Zle_Qle. unfold Z.succ in HN2. lia. }
  assert (Hyx : y == x * pow2 s) by (unfold y; by rewrite pow2_Z).
  pose proof (pow2_pos s) as Hps.
  pose proof (pow2_sub l s) as Hsub1.
  pose proof (pow2_sub (l + 1) s) as Hsub2.
  replace (l - s + 1)%Z with (l + 1 - s)%Z by lia.
  rewrite Hyx in Hlow, Hhigh. rewrite <- Hsub1 in Hlow. rewrite <- Hsub2 in Hhigh.
  split.
  - by apply Qmult_le_r in Hlow.
  - by apply Qmult_lt_r in Hhigh.
Qed.

Lemma floor_log2_unique x L :
  pow2 L <= x → x < pow2 (L + 1) → floor_log2 x = L.
Proof.
  intros Hlo Hhi.
  assert (Hx : 0 < x) by (pose proof (pow2_pos L); lra).
  destruct (floor_log2_spec x Hx) as [Hlo' Hhi'].
  destruct (Z.lt_trichotomy (floor_log2 x) L) as [Hlt|[?|Hgt]]; [|done|].
  - pose proof (pow2_le (floor_log2 x + 1) L ltac:(lia)). lra.
  - pose proof (pow2_le (L + 1) (floor_log2 x) ltac:(lia)). lra.
Qed.

Lemma floor_log2_Qeq x y : 0 < x → x == y → floor_log2 x = floor_log2 y.
Proof.
  intros Hx Hxy. symmetry. destruct (floor_log2_spec x Hx).
  apply floor_log2_unique; by rewrite <- Hxy.
Qed.

(** ** Rounding to 53 bits *)

Lemma to_float_zero x : x == 0 → to_float x = 0.
Proof. intros Hx. unfold to_float. by rewrite (proj2 (Qeq_bool_iff x 0) Hx). Qed.

Lemma to_float_nonzero x :
  ¬ x == 0 →
  to_float x =
  inject_Z (rne (x / pow2 (floor_log2 (Qabs x) - 52)))
  * pow2 (floor_log2 (Qabs x) - 52).
Proof.
  intros Hx. unfold to_float.
  destruct (Qeq_bool x 0) eqn:Hb; [|done].
  by apply Qeq_bool_iff in Hb.
Qed.

Lemma Qabs_pos_nonzero x : ¬ x == 0 → 0 < Qabs x.
Proof.
  intros Hx. destruct (Qlt_le_dec 0 (Qabs x)) as [|Hle]; [done|].
  pose proof (Qabs_nonneg x). exfalso. apply Hx.
  assert (Habs : Qabs x == 0) by lra.
  revert Habs. apply Qabs_case; intros; lra.
Qed.

#[global] Instance to_float_proper : Proper (Qeq ==> Qeq) to_float.
Proof.
  intros x y Hxy. destruct (Qeq_dec x 0) as [Hx|Hx].
  - rewrite (to_float_zero x Hx), (to_float_zero y); [reflexivity|].
    by rewrite <- Hxy.
  - assert (Hy : ¬ y == 0) by (by rewrite <- Hxy).
    rewrite (to_float_nonzero x Hx), (to_float_nonzero y Hy).
    assert (He : floor_log2 (Qabs x) = floor_log2 (Qabs y)).
    { apply floor_log2_Qeq; [by apply Qabs_pos_nonzero|by rewrite Hxy]. }
    rewrite He. by rewrite Hxy.
Qed.

(** The significand lies between 2^52 and 2^53. *)
Lemma significand_range x :
  ¬ x == 0 →
  let e := (floor_log2 (Qabs x) - 52)%Z in
  pow2 52 * pow2 e <= Qabs x ∧ Qabs x < pow2 53 * pow2 e.
Proof.
  intros Hx e.
  destruct (floor_log2_spec (Qabs x) (Qabs_pos_nonzero x Hx)) as [Hlo Hhi].
  rewrite <- !pow2_add.
  replace (52 + e)%Z with (floor_log2 (Qabs x)) by (unfold e; lia).
  replace (53 + e)%Z with (floor_log2 (Qabs x) + 1)%Z by (unfold e; lia).
  done.
Qed.

Lemma to_float_error x :
  Qabs (to_float x - x) <= Qabs x * pow2 (-53).
Proof.
  destruct (Qeq_dec x 0) as [Hx|Hx].
  { rewrite (to_float_zero x Hx), Hx. pose proof (pow2_pos (-53)).
    change (Qabs (0 - 0)) with 0. change (Qabs 0) with 0. lra. }
  rewrite (to_float_nonzero x Hx).
  destruct (significand_range x Hx) as [Hlo _].
  set (e := (floor_log2 (Qabs x) - 52)%Z) in *.
  pose proof (pow2_pos e) as He.
  pose proof (rne_bounds (x / pow2 e)) as [Hr1 Hr2].
  set (m := inject_Z (rne (x / pow2 e))) in *.
  assert (Hx' : x == x / pow2 e * pow2 e) by (field; lra).
  assert (Hhalf : pow2 e * (1 # 2) <= Qabs x * pow2 (-53)).
  { assert (H53 : pow2 (-53) * pow2 52 == 1 # 2) by (vm_compute; reflexivity).
    assert (Hpos : 0 < pow2 (-53)) by apply pow2_pos.
    assert (pow2 (-53) * (pow2 52 * pow2 e) <= pow2 (-53) * Qabs x)
      by (by apply Qmult_le_l).
    assert (Hre : pow2 (-53) * (pow2 52 * pow2 e) == pow2 e * (1 # 2)).
    { rewrite Qmult_assoc, H53. ring. }
    lra. }
  eapply Qle_trans; [|exact Hhalf].
  apply Qabs_Qle_condition.
  assert (Hd : m * pow2 e - x == (m - x / pow2 e) * pow2 e) by (field; lra).
  rewrite Hd. split.
  - assert (- (1 # 2) * pow2 e <= (m - x / pow2 e) * pow2 e).
    { apply Qmult_le_r; [done|lra]. }
    lra.
  - assert ((m - x / pow2 e) * pow2 e <= (1 # 2) * pow2 e).
    { apply Qmult_le_r; [done|lra]. }
    lra.
Qed.

Lemma Qabs_pow2 e : Qabs (pow2 e) == pow2 e.
Proof. apply Qabs_pos. pose proof (pow2_pos e). lra. Qed.


Lemma to_float_opp x : to_float (- x) == - to_float x.
Proof.
  destruct (Qeq_dec x 0) as [Hx|Hx].
  { rewrite (to_float_zero x Hx), (to_float_zero (- x)); [reflexivity|].
    rewrite Hx. reflexivity. }
  assert (Hx' : ¬ - x == 0) by (intros ?; apply Hx; lra).
  rewrite (to_float_nonzero x Hx), (to_float_nonzero _ Hx').
  assert (HL : floor_log2 (Qabs (- x)) = floor_log2 (Qabs x)).
  { apply floor_log2_Qeq; [by apply Qabs_pos_nonzero|apply Qabs_opp]. }
  rewrite HL. set (e := (floor_log2 (Qabs x) - 52)%Z).
  pose proof (pow2_pos e) as He.
  assert (Hq : - x / pow2 e == - (x / pow2 e)) by (field; lra).
  rewrite Hq, rne_opp, inject_Z_opp. ring.
Qed.


Lemma significand_bounds x :
  ¬ x == 0 →
  (2 ^ 52 ≤ Z.abs (rne (x / pow2 (floor_log2 (Qabs x) - 52))) ≤ 2 ^ 53)%Z.
Proof.
  intros Hx. destruct (significand_range x Hx) as [Hlo Hhi].
  set (e := (floor_log2 (Qabs x) - 52)%Z) in *.
  pose proof (pow2_pos e) as He.
  assert (H52 : inject_Z (2 ^ 52) == pow2 52) by (by apply pow2_Z).
  assert (H53 : inject_Z (2 ^ 53) == pow2 53) by (by apply pow2_Z).
  assert (Hq : Qabs (x / pow2 e) == Qabs x / pow2 e).
  { unfold Qdiv. by rewrite Qabs_Qmult, Qabs_Qinv, Qabs_pow2. }
  assert (Hlo' : pow2 52 <= Qabs (x / pow2 e)).
  { rewrite Hq. apply Qle_shift_div_l; [done|]. done. }
  assert (Hhi' : Qabs (x / pow2 e) <= pow2 53).
  { rewrite Hq. apply Qle_shift_div_r; [done|]. lra. }
  revert Hlo' Hhi'. apply Qabs_case; intros Hsign Hlo' Hhi'.
  - assert (2 ^ 52 ≤ rne (x / pow2 e))%Z.
    { rewrite <- (rne_Z (2 ^ 52)). apply rne_mono. by rewrite H52. }
    assert (rne (x / pow2 e) ≤ 2 ^ 53)%Z.
    { rewrite <- (rne_Z (2 ^ 53)). apply rne_mono. by rewrite H53. }
    lia.
  - assert (rne (x / pow2 e) ≤ - 2 ^ 52)%Z.
    { rewrite <- (rne_Z (- 2 ^ 52)). apply rne_mono.
      rewrite inject_Z_opp, H52. lra. }
    assert (- 2 ^ 53 ≤ rne (x / pow2 e))%Z.
    { rewrite <- (rne_Z (- 2 ^ 53)). apply rne_mono.
      rewrite inject_Z_opp, H53. lra. }
    lia.
Qed.


Lemma to_float_between x :
  0 < x →
  pow2 (floor_log2 x) <= to_float x ∧ to_float x <= pow2 (floor_log2 x + 1).
Proof.
  intros Hx. assert (Hx0 : ¬ x == 0) by lra.
  assert (Habs : Qabs x == x) by (apply Qabs_pos; lra).
  rewrite (to_float_nonzero x Hx0).
  pose proof (significand_bounds x Hx0) as Hm.
  assert (HL : floor_log2 (Qabs x) = floor_log2 x).
  { apply floor_log2_Qeq; [by apply Qabs_pos_nonzero|done]. }
  rewrite HL in *. set (L := floor_log2 x) in *.
  set (e := (L - 52)%Z) in *. pose proof (pow2_pos e) as He.
  assert (Hpos : 0 <= x / pow2 e).
  { apply Qle_shift_div_l; [done|]. lra. }
  assert (Hm0 : (0 ≤ rne (x / pow2 e))%Z).
  { rewrite <- (rne_Z 0). by apply rne_mono. }
  set (m := rne (x / pow2 e)) in *.
  assert (H52 : inject_Z (2 ^ 52) == pow2 52) by (by apply pow2_Z).
  assert (H53 : inject_Z (2 ^ 53) == pow2 53) by (by apply pow2_Z).
  assert (Hm1 : pow2 52 <= inject_Z m) by (rewrite <- H52, <- Zle_Qle; lia).
  assert (Hm2 : inject_Z m <= pow2 53) by (rewrite <- H53, <- Zle_Qle; lia).
  replace L with (52 + e)%Z at 1 by (unfold e; lia).
  replace (L + 1)%Z with (53 + e)%Z by (unfold e; lia).
  rewrite !pow2_add. split; by apply Qmult_le_r.
Qed.

Lemma to_float_mono x y : 0 < x → x <= y → to_float x <= to_float y.
Proof.
  intros Hx Hxy. assert (Hy : 0 < y) by lra.
  destruct (floor_log2_spec x Hx) as [Hx1 Hx2].
  destruct (floor_log2_spec y Hy) as [Hy1 Hy2].
  destruct (to_float_between x Hx) as [_ Hfx].
  destruct (to_float_between y Hy) as [Hfy _].
  destruct (Z.lt_trichotomy (floor_log2 x) (floor_log2 y)) as [Hlt|[Heq|Hgt]].
  - pose proof (pow2_le (floor_log2 x + 1) (floor_log2 y) ltac:(lia)). lra.
  - assert (Hx0 : ¬ x == 0) by lra. assert (Hy0 : ¬ y == 0) by lra.
    rewrite (to_float_nonzero x Hx0), (to_float_nonzero y Hy0).
    assert (HLx : floor_log2 (Qabs x) = floor_log2 x).
    { apply floor_log2_Qeq; [by apply Qabs_pos_nonzero|apply Qabs_pos; lra]. }
    assert (HLy : floor_log2 (Qabs y) = floor_log2 y).
    { apply floor_log2_Qeq; [by apply Qabs_pos_nonzero|apply Qabs_pos; lra]. }
    rewrite HLx, HLy, Heq. set (e := (floor_log2 y - 52)%Z).
    pose proof (pow2_pos e) as He.
    apply Qmult_le_r; [done|]. rewrite <- Zle_Qle. apply rne_mono.
    apply Qmult_le_r; [by apply Qinv_lt_0_compat|done].
  - pose proof (pow2_le (floor_log2 y + 1) (floor_log2 x) ltac:(lia)). lra.
Qed.

(** ** The two float expressions of [align_matches] *)





(** Evaluated in binary64, the test of the fallback loop is the exact one
    for counts below 2^53. *)
Theorem at_least_tenth_binary64_exact count largest_count :
  (0 ≤ count)%Z → (0 < largest_count < 2 ^ 53)%Z →
  at_least_tenth_binary64 count largest_count =
  at_least_tenth (inject_Z count / inject_Z largest_count).
Proof.
  intros Hc Hlc. unfold at_least_tenth_binary64, at_least_tenth.
  set (q := inject_Z count / inject_Z largest_count).
  assert (Htenth : 1 # 10 <= to_float (1 # 10)) by (vm_compute; discriminate).
  destruct (Qlt_le_dec q (1 # 10)) as [Hlt|Hge].
  - assert (Hfalse : Qle_bool (1 # 10) q = false).
    { apply not_true_iff_false. rewrite Qle_bool_iff. lra. }
    rewrite Hfalse. apply not_true_iff_false. rewrite Qle_bool_iff.
    enough (to_float q < 1 # 10) by lra.
    destruct largest_count as [|p|p]; [lia| |lia].
    assert (Hq0 : 0 <= q).
    { unfold q, Qle, Qdiv, Qmult, Qinv, inject_Z. simpl. lia. }
    assert (Hgap : q <= (1 # 10) - (1 # 10) * (1 # p)).
    { revert Hlt. unfold q, Qlt, Qle, Qdiv, Qmult, Qinv, Qminus, Qplus, Qopp,
        inject_Z. simpl. intros Hlt. nia. }
    assert (Hp : 1 # 9007199254740992 < 1 # p).
    { unfold Qlt. simpl. lia. }
    pose proof (to_float_error q) as Herr.
    assert (H53 : pow2 (-53) == 1 # 9007199254740992) by reflexivity.
    rewrite H53, (Qabs_pos q Hq0) in Herr.
    apply Qabs_Qle_condition in Herr as [_ Herr]. lra.
  - assert (Htrue : Qle_bool (1 # 10) q = true) by (by apply Qle_bool_iff).
    rewrite Htrue. apply Qle_bool_iff. by apply to_float_mono.
Qed.
End Binary64.

(** * The fallback test in floats *)

Lemma cell_count_le_length p sid diff :
  cell_count p sid diff ≤ Z.of_nat (length p).
Proof.
  unfold cell_count. apply inj_le.
  induction p as [|tup p IH]; [done|].
  rewrite filter_cons. case_decide; simpl; lia.
Qed.

Lemma max_count_le_length p : max_count p ≤ Z.of_nat (length p).
Proof.
  unfold max_count.
  destruct (foldr_max_attained ((λ tup, cell_count p tup.1 tup.2) <$> p))
    as [->|Hin]; [lia|].
  apply list_elem_of_fmap in Hin as [tup [-> _]]. apply cell_count_le_length.
Qed.

(** On a vote list of fewer than 2^53 votes, the float comparison
    [count / largest_count >= 0.1] of the fallback loop decides, for every
    entry of the table, as the integer comparison does. *)
Lemma fallback_test_binary64 matches key e :
  Z.of_nat (length matches) < 2 ^ 53 →
  PyDict.get key (largest_matches (tally matches)) = Some e →
  at_least_tenth_binary64 (Entry.count e) (largest_count (tally matches)) =
  bool_decide (largest_count (tally matches) ≤ 10 * Entry.count e).
Proof.
  intros Hlen Hget.
  pose proof (last_lead_bounds _ _ _ (tally_table _ _ _ Hget)) as [Hc1 Hc2].
  pose proof (tally_bound matches key (Entry.diff e)) as Hb.
  pose proof (max_count_le_length matches) as Hmax.
  rewrite <- tally_largest_count in Hmax.
  rewrite at_least_tenth_binary64_exact by lia.
  apply at_least_tenth_div. lia.
Qed.

(** * The reported seconds *)



(** * The histogram as the loop stores it *)

Lemma count_vote_lookup dc sid diff d s :
  count_vote dc sid diff !! d ≫= (.!! s) =
  if decide ((sid, diff) = (s, d)) then Some (counter_at dc diff sid + 1)
  else dc !! d ≫= (.!! s).
Proof.
  unfold count_vote, counter_at. cbv zeta.
  destruct (dc !! diff) as [row|] eqn:Hrow.
  - rewrite (decide_False (P := Some row = None)) by done. rewrite Hrow. simpl.
    destruct (row !! sid) as [c|] eqn:Hc.
    + rewrite (decide_False (P := Some c = None)) by done.
      rewrite Hrow. simpl. rewrite Hc. simpl.
      case_decide as Heq; [injection Heq as <- <-|].
      * rewrite lookup_insert_eq. simpl. by rewrite lookup_insert_eq.
      * destruct (decide (diff = d)) as [<-|Hd].
        -- rewrite lookup_insert_eq. simpl.
           rewrite lookup_insert_ne by congruence. by rewrite Hrow.
        -- by rewrite lookup_insert_ne.
    + rewrite (decide_True (P := None = None)) by done.
      rewrite !lookup_insert_eq. simpl.
      rewrite lookup_insert_eq. simpl. rewrite !insert_insert_eq.
      case_decide as Heq; [injection Heq as <- <-|].
      * rewrite lookup_insert_eq. simpl. by rewrite lookup_insert_eq.
      * destruct (decide (diff = d)) as [<-|Hd].
        -- rewrite lookup_insert_eq. simpl.
           rewrite lookup_insert_ne by congruence. by rewrite Hrow.
        -- by rewrite lookup_insert_ne.
  - rewrite (decide_True (P := None = None)) by done.
    rewrite !lookup_insert_eq. simpl.
    rewrite lookup_empty. rewrite (decide_True (P := None = None)) by done.
    rewrite !lookup_insert_eq. simpl. rewrite lookup_insert_eq. simpl.
    rewrite !insert_insert_eq.
    case_decide as Heq; [injection Heq as <- <-|].
    + rewrite lookup_insert_eq. simpl. by rewrite lookup_insert_eq.
    + destruct (decide (diff = d)) as [<-|Hd].
      * rewrite lookup_insert_eq. simpl.
        rewrite lookup_insert_ne by congruence. by rewrite Hrow.
      * by rewrite lookup_insert_ne.
Qed.

Lemma count_vote_rows dc sid diff d :
  is_Some (count_vote dc sid diff !! d) ↔ d = diff ∨ is_Some (dc !! d).
Proof.
  unfold count_vote. rewrite lookup_insert_is_Some'.
  repeat case_decide; rewrite ?lookup_insert_is_Some'; intuition congruence.
Qed.

Lemma diff_counter_vote st tup :
  diff_counter (vote st tup) = count_vote (diff_counter st) tup.1 tup.2.
Proof. destruct tup as [sid diff]. unfold vote. by case_decide. Qed.

(** X1. After the loop [diff_counter[diff][sid]] exists exactly for the cells
    [(sid, diff)] that got a vote, and holds the number of votes of the
    cell; a row [diff_counter[diff]] exists exactly for the offsets that got
    a vote, so no row is empty. *)
Theorem diff_counter_histogram matches :
  (∀ sid diff,
     diff_counter (tally matches) !! diff ≫= (.!! sid) =
     if decide ((sid, diff) ∈ matches)
     then Some (cell_count matches sid diff) else None) ∧
  (∀ diff,
     is_Some (diff_counter (tally matches) !! diff) ↔
     ∃ sid, (sid, diff) ∈ matches).
Proof.
  induction matches as [|[s0 d0] p [IHcell IHrow]] using rev_ind.
  - split.
    + intros sid diff. rewrite decide_False by apply not_elem_of_nil. done.
    + intros diff. simpl. rewrite lookup_empty. split.
      * by intros [? ?].
      * by intros [? ?%elem_of_nil].
  - rewrite tally_snoc, diff_counter_vote. simpl. split.
    + intros sid diff. rewrite count_vote_lookup, cell_count_snoc.
      rewrite tally_counter.
      destruct (decide ((s0, d0) = (sid, diff))) as [[= -> ->]|Hne].
      * rewrite decide_True; [done|]. apply elem_of_app. right. by left.
      * rewrite IHcell, Z.add_0_r.
        destruct (decide ((sid, diff) ∈ p)) as [Hin|Hnotin].
        -- rewrite decide_True; [done|]. apply elem_of_app. by left.
        -- rewrite decide_False; [done|].
           intros [?|Heq%list_elem_of_singleton]%elem_of_app; [done|].
           by destruct Hne.
    + intros diff. rewrite count_vote_rows, IHrow. split.
      * intros [->|[sid Hin]].
        -- exists s0. apply elem_of_app. right. by left.
        -- exists sid. apply elem_of_app. by left.
      * intros [sid [Hin|Heq%list_elem_of_singleton]%elem_of_app].
        -- right. by exists sid.
        -- left. by injection Heq.
Qed.

(** * The match and the order of the votes *)



Lemma cell_count_perm m m' sid diff :
  m ≡ₚ m' → cell_count m sid diff = cell_count m' sid diff.
Proof. intros Hperm. unfold cell_count. by rewrite Hperm. Qed.

Lemma largest_count_perm m m' :
  m ≡ₚ m' → largest_count (tally m) = largest_count (tally m').
Proof.
  intros Hperm. rewrite !tally_largest_count.
  destruct (decide (m' = [])) as [->|Hne].
  { by apply Permutation_nil_r in Hperm as ->. }
  symmetry. eapply max_count_unique.
  - intros s d. rewrite <- (cell_count_perm m m') by done. apply max_count_ge.
  - rewrite <- tally_largest_count at 1.
    rewrite <- (tally_winner_cell m).
    + symmetry. by apply cell_count_perm.
    + intros ->. by apply Permutation_nil_l in Hperm.
Qed.

(** X3. The confidence of a match depends on the votes as a multiset only:
    two lists with the same votes in another order give the same
    confidence, whatever the two stores answer. *)
Theorem confidence_order_independent `{Database DB} (db db' : DB)
    matches matches' r r' :
  matches ≡ₚ matches' →
  align_matches db matches = Return (Some r) →
  align_matches db' matches' = Return (Some r') →
  Match.confidence r = Match.confidence r'.
Proof.
  intros Hperm (? & _ & _ & -> & _)%align_matches_inv
    (? & _ & _ & -> & _)%align_matches_inv.
  simpl. by apply largest_count_perm.
Qed.

Lemma strict_maximum_wins m sid diff :
  (∀ s d, (s, d) ≠ (sid, diff) → cell_count m s d < cell_count m sid diff) →
  song_id (tally m) = sid ∧ largest (tally m) = diff ∧
  largest_count (tally m) = cell_count m sid diff.
Proof.
  intros Hmax.
  assert (Hne : m ≠ []).
  { intros ->. specialize (Hmax (sid + 1) diff). rewrite !cell_count_nil in Hmax.
    assert ((sid + 1, diff) ≠ (sid, diff)) by (intros [= ?]; lia).
    specialize (Hmax ltac:(done)). lia. }
  pose proof (tally_winner_cell m Hne) as Hwin.
  pose proof (tally_bound m sid diff) as Hb.
  destruct (decide ((song_id (tally m), largest (tally m)) = (sid, diff)))
    as [[= Hs Hd]|Hother].
  - rewrite <- Hwin. by rewrite Hs, Hd.
  - specialize (Hmax _ _ Hother). lia.
Qed.

(** X4. When one cell has strictly more votes than every other cell, that
    cell is the match in every order of the votes: its song, its offset and
    its count are reported. *)
Theorem unique_maximum_wins `{Database DB} (db : DB) matches matches' sid diff
    r :
  (∀ s d, (s, d) ≠ (sid, diff) →
     cell_count matches s d < cell_count matches sid diff) →
  matches ≡ₚ matches' →
  align_matches db matches' = Return (Some r) →
  Match.song_id r = sid ∧ Match.offset r = diff ∧
  Match.confidence r = cell_count matches sid diff.
Proof.
  intros Hmax Hperm (? & _ & _ & -> & _)%align_matches_inv. simpl.
  rewrite (cell_count_perm matches matches') by done.
  apply strict_maximum_wins. intros s d Hsd.
  rewrite <- !(cell_count_perm matches matches') by done. by apply Hmax.
Qed.

Lemma tally_table_le p key e :
  PyDict.get key (largest_matches (tally p)) = Some e →
  Entry.count e ≤ largest_count (tally p).
Proof.
  intros Hget.
  pose proof (last_lead_bounds _ _ _ (tally_table _ _ _ Hget)) as [_ Hc].
  pose proof (tally_bound p key (Entry.diff e)). lia.
Qed.

Lemma tally_table_below p key e :
  key ≠ song_id (tally p) →
  PyDict.get key (largest_matches (tally p)) = Some e →
  Entry.count e < largest_count (tally p).
Proof.
  revert e. induction p as [|[s0 d0] p IH] using rev_ind; intros e; [done|].
  destruct (tally_vote p s0 d0)
    as [(Hlt & _ & -> & -> & ->)|(Hle & _ & -> & -> & ->)].
  - intros Hkey. rewrite PyDict_get_set_ne by done.
    intros Hget%tally_table_le. lia.
  - apply IH.
Qed.

(** X5. A fallback is never the winning song, and its confidence is at
    least one vote, strictly below the winner's confidence and at least a
    tenth of it. *)
Theorem fallbacks_below_winner `{Database DB} (db : DB) matches r fb :
  align_matches db matches = Return (Some r) →
  fb ∈ Match.fallback_matches r →
  Fallback.song_id fb ≠ Match.song_id r ∧
  1 ≤ Fallback.confidence fb < Match.confidence r ∧
  Match.confidence r ≤ 10 * Fallback.confidence fb.
Proof.
  intros (? & _ & _ & -> & _)%align_matches_inv. simpl.
  intros (key & e & rec & Hin & [Hkey Hten] & _ & ->)%elem_of_omap_fallback_of.
  simpl. apply PyDict_elem_of_get in Hin; [|apply tally_table_nodup].
  pose proof (last_lead_bounds _ _ _ (tally_table _ _ _ Hin)) as [Hone _].
  pose proof (tally_table_below _ _ _ Hkey Hin). split_and!; done.
Qed.


Lemma confidence_order_independent_witness :
  tied_votes ≡ₚ tied_votes_reordered ∧
  Match.fallback_matches tied_votes_match ≠
    Match.fallback_matches tied_votes_reordered_match ∧
  Match.confidence tied_votes_match =
    Match.confidence tied_votes_reordered_match.
Proof.
  assert (Hperm : tied_votes ≡ₚ tied_votes_reordered).
  { unfold tied_votes, tied_votes_reordered.
    etrans; [apply perm_swap|]. apply perm_skip, perm_swap. }
  split; [exact Hperm|]. split; [discriminate|].
  refine (confidence_order_independent two_song_store one_song_store
    tied_votes tied_votes_reordered tied_votes_match
    tied_votes_reordered_match Hperm _ _); vm_compute; reflexivity.
Defined.

Lemma unique_maximum_wins_witness :
  runner_up_votes ≡ₚ runner_up_votes_reordered ∧
  Match.song_id runner_up_match = 1 ∧
  Match.offset runner_up_match = 0 ∧
  Match.confidence runner_up_match = cell_count runner_up_votes 1 0.
Proof.
  assert (Hperm : runner_up_votes ≡ₚ runner_up_votes_reordered).
  { unfold runner_up_votes, runner_up_votes_reordered.
    apply perm_skip, perm_swap. }
  split; [exact Hperm|].
  refine (unique_maximum_wins two_song_store runner_up_votes
    runner_up_votes_reordered 1 0 runner_up_match _ Hperm _).
  - intros s d Hne. unfold cell_count, runner_up_votes.
    rewrite !filter_cons, filter_nil.
    rewrite !(decide_False (P := (1, 0) = (s, d))) by congruence.
    destruct (decide ((2, 0) = (s, d))); vm_compute; reflexivity.
  - vm_compute; reflexivity.
Defined.

Lemma fallbacks_below_winner_witness :
  align_matches two_song_store tied_votes = Return (Some tied_votes_match) ∧
  Forall
    (λ fb, 1 ≤ Fallback.confidence fb < Match.confidence tied_votes_match)
    (Match.fallback_matches tied_votes_match).
Proof.
  split; [vm_compute; reflexivity|].
  apply Forall_forall. intros fb Hfb.
  refine (proj1 (proj2 (fallbacks_below_winner two_song_store tied_votes
    tied_votes_match fb _ Hfb))).
  vm_compute; reflexivity.
Defined.

(** * The cache of content hashes *)

Section Cache.
Context `{Database DB}.
Implicit Types (self : Dejavu DB) (rows : list SongRec).

Lemma row_hashes_cons_Some song rows h :
  song !! FIELD_FILE_SHA1 = Some h →
  row_hashes (song :: rows) = {[h]} ∪ row_hashes rows.
Proof. intros Hh. unfold row_hashes. simpl. by rewrite Hh. Qed.

Lemma elem_of_row_hashes rows h :
  h ∈ row_hashes rows ↔
  ∃ song, song ∈ rows ∧ song !! FIELD_FILE_SHA1 = Some h.
Proof. unfold row_hashes. by rewrite elem_of_list_to_set, list_elem_of_omap. Qed.

Lemma add_song_hashes_ok rows self :
  Forall (λ song, is_Some (song !! FIELD_FILE_SHA1)) rows →
  add_song_hashes rows self =
  (Return (),
   mkDejavu (db self) (limit self) (songs self)
     (row_hashes rows ∪ songhashes_set self) (trace self)).
Proof.
  intros Hall. revert self.
  induction Hall as [|song rows [h Hh] _ IH]; intros self.
  - simpl. unfold method_ret, row_hashes. simpl.
    rewrite (left_id_L ∅ (∪)). by destruct self.
  - simpl. rewrite Hh. unfold method_bind. rewrite IH. simpl.
    rewrite (row_hashes_cons_Some _ _ h) by done. do 2 f_equal.
    apply set_eq. intros x. rewrite !elem_of_union. tauto.
Qed.

Lemma add_song_hashes_stop pre bad post self :
  Forall (λ song, is_Some (song !! FIELD_FILE_SHA1)) pre →
  bad !! FIELD_FILE_SHA1 = None →
  add_song_hashes (pre ++ bad :: post) self =
  (Raise (KeyError FIELD_FILE_SHA1),
   mkDejavu (db self) (limit self) (songs self)
     (row_hashes pre ∪ songhashes_set self) (trace self)).
Proof.
  intros Hall Hbad. revert self.
  induction Hall as [|song rows [h Hh] _ IH]; intros self.
  - simpl. rewrite Hbad. unfold raise, row_hashes. simpl.
    rewrite (left_id_L ∅ (∪)). by destruct self.
  - simpl. rewrite Hh. unfold method_bind. rewrite IH. simpl.
    rewrite (row_hashes_cons_Some _ _ h) by done. do 2 f_equal.
    apply set_eq. intros x. rewrite !elem_of_union. tauto.
Qed.

(** Every row has the key, or there is a first row without it. *)
Lemma first_row_without_hash rows :
  Forall (λ song, is_Some (song !! FIELD_FILE_SHA1)) rows ∨
  ∃ pre bad post,
    rows = pre ++ bad :: post ∧
    Forall (λ song, is_Some (song !! FIELD_FILE_SHA1)) pre ∧
    bad !! FIELD_FILE_SHA1 = None.
Proof.
  induction rows as [|song rows IH]; [by left|].
  destruct (song !! FIELD_FILE_SHA1) as [h|] eqn:Hh.
  - destruct IH as [Hall|(pre & bad & post & -> & Hpre & Hbad)].
    + left. constructor; [by exists h|done].
    + right. exists (song :: pre), bad, post. split_and!; [done| |done].
      constructor; [by exists h|done].
  - right. by exists [], song, rows.
Qed.

(** A refresh that returns has set both attributes from the rows of the
    store. *)
Lemma get_fingerprinted_songs_return self self' :
  get_fingerprinted_songs self = (Return (), self') →
  self' =
  mkDejavu (db self) (limit self) (get_songs (db self))
    (row_hashes (get_songs (db self))) (trace self).
Proof.
  unfold get_fingerprinted_songs.
  destruct (first_row_without_hash (get_songs (db self)))
    as [Hall|(pre & bad & post & Hrows & Hpre & Hbad)].
  - rewrite add_song_hashes_ok by done. simpl. intros [= <-].
    by rewrite (right_id_L ∅ (∪)).
  - rewrite Hrows at 1. by rewrite add_song_hashes_stop.
Qed.

(** Whether it returns or not, the refresh has replaced [self.songs]. *)
Lemma get_fingerprinted_songs_songs self :
  songs (get_fingerprinted_songs self).2 =
  get_songs (db (get_fingerprinted_songs self).2).
Proof.
  assert (Hkeep : ∀ rows self0,
    songs (add_song_hashes rows self0).2 = songs self0 ∧
    db (add_song_hashes rows self0).2 = db self0).
  { intros rows self0. destruct (first_row_without_hash rows)
      as [Hall|(pre & bad & post & -> & Hpre & Hbad)].
    - by rewrite add_song_hashes_ok.
    - by rewrite add_song_hashes_stop. }
  unfold get_fingerprinted_songs.
  by destruct (Hkeep (get_songs (db self))
    (mkDejavu (db self) (limit self) (get_songs (db self)) ∅ (trace self)))
    as [-> ->].
Qed.

Lemma get_fingerprinted_songs_raise self self' e :
  get_fingerprinted_songs self = (Raise e, self') →
  e = KeyError FIELD_FILE_SHA1.
Proof.
  unfold get_fingerprinted_songs.
  destruct (first_row_without_hash (get_songs (db self)))
    as [Hall|(pre & bad & post & Hrows & Hpre & Hbad)].
  - by rewrite add_song_hashes_ok.
  - rewrite Hrows at 1. rewrite add_song_hashes_stop by done. by intros [= <- _].
Qed.

(** X6. When every row of the store has a content hash, the refresh
    returns with [self.songs] the rows of the store and [self.songhashes_set]
    exactly their content hashes: what the cache held before is dropped.
    The store, the limit and the trace are as before. *)
Theorem get_fingerprinted_songs_rebuilds_cache self :
  Forall (λ song, is_Some (song !! FIELD_FILE_SHA1)) (get_songs (db self)) →
  get_fingerprinted_songs self =
  (Return (),
   mkDejavu (db self) (limit self) (get_songs (db self))
     (row_hashes (get_songs (db self))) (trace self)) ∧
  ∀ h, h ∈ row_hashes (get_songs (db self)) ↔
       ∃ song, song ∈ get_songs (db self) ∧
               song !! FIELD_FILE_SHA1 = Some h.
Proof.
  intros Hall. split; [|apply elem_of_row_hashes].
  unfold get_fingerprinted_songs. rewrite add_song_hashes_ok by done.
  simpl. by rewrite (right_id_L ∅ (∪)).
Qed.

(** X7. A row without a content hash makes the refresh raise [KeyError] and
    leaves the object half refreshed: [self.songs] is already the new list
    of rows, and the cache holds the hashes of the rows before the first
    such row only. *)
Theorem get_fingerprinted_songs_missing_hash self pre bad post :
  get_songs (db self) = pre ++ bad :: post →
  Forall (λ song, is_Some (song !! FIELD_FILE_SHA1)) pre →
  bad !! FIELD_FILE_SHA1 = None →
  get_fingerprinted_songs self =
  (Raise (KeyError FIELD_FILE_SHA1),
   mkDejavu (db self) (limit self) (get_songs (db self)) (row_hashes pre)
     (trace self)).
Proof.
  intros Hrows Hpre Hbad. unfold get_fingerprinted_songs.
  rewrite Hrows at 1. rewrite add_song_hashes_stop by done. simpl.
  by rewrite (right_id_L ∅ (∪)).
Qed.

End Cache.

Lemma get_fingerprinted_songs_rebuilds_cache_witness :
  get_fingerprinted_songs (new_dejavu (db dejavu_with_a)) =
  (Return (),
   mkDejavu (db dejavu_with_a) LimitNone (get_songs (db dejavu_with_a))
     (row_hashes (get_songs (db dejavu_with_a))) []).
Proof.
  refine (proj1 (get_fingerprinted_songs_rebuilds_cache
    (new_dejavu (db dejavu_with_a)) _)).
  apply Forall_forall. intros song Hsong.
  assert (Hrows : get_songs (db (new_dejavu (db dejavu_with_a))) =
            [<[SONG_DURATION := "1.5"]>
               (<[SONG_NAME := "a.wav"]> {[FIELD_FILE_SHA1 := "a.wav"]})])
    by (vm_compute; reflexivity).
  rewrite Hrows in Hsong. apply list_elem_of_singleton in Hsong as ->.
  exists "a.wav". vm_compute; reflexivity.
Defined.

Lemma get_fingerprinted_songs_missing_hash_witness :
  get_fingerprinted_songs (new_dejavu one_song_store) =
  (Raise (KeyError FIELD_FILE_SHA1),
   mkDejavu one_song_store LimitNone (get_songs one_song_store)
     (row_hashes []) []).
Proof.
  refine (get_fingerprinted_songs_missing_hash (new_dejavu one_song_store)
    [] {[SONG_NAME := "B"]} [] _ _ _).
  - vm_compute; reflexivity.
  - constructor.
  - vm_compute; reflexivity.
Defined.

(** * The constructor *)

(** X8. An object that the constructor returns never has the limit [-1]:
    its limit is [None] exactly when the config has no limit, [None] or
    [-1], and is the configured limit otherwise.  Its [songs] are the rows
    of its store and its cache holds their content hashes. *)
Theorem init_limit_and_cache `{DatabaseModule Kwargs DB} `{Database DB}
    (config : Config Kwargs) (self : Dejavu DB) :
  __init__ config = Return self →
  limit self ≠ LimitSeconds (-1) ∧
  (limit self = LimitNone ↔
   fingerprint_limit config = None ∨
   fingerprint_limit config = Some LimitNone ∨
   fingerprint_limit config = Some (LimitSeconds (-1))) ∧
  (limit self ≠ LimitNone → fingerprint_limit config = Some (limit self)) ∧
  songs self = get_songs (db self) ∧
  songhashes_set self = row_hashes (get_songs (db self)) ∧
  trace self = [].
Proof.
  unfold __init__.
  destruct (get_database _) as [db_cls|]; [|done].
  destruct (db_cls _) as [d|]; [|done].
  destruct (setup d) as [[[]|] d']; [|done].
  destruct (get_fingerprinted_songs _) as [[[]|] self'] eqn:Hrefresh; [|done].
  intros [= ->]. apply get_fingerprinted_songs_return in Hrefresh as ->.
  simpl. destruct (fingerprint_limit config) as [[|n|s]|]; simpl;
    try case_decide; subst; intuition congruence.
Qed.

Lemma init_limit_and_cache_witness :
  __init__ (H := MemStore_module)
    (mkConfig None None (Some (LimitSeconds (-1)))) =
    Return (new_dejavu empty_store) ∧
  limit (new_dejavu empty_store) ≠ LimitSeconds (-1).
Proof.
  split; [vm_compute; reflexivity|].
  refine (proj1 (init_limit_and_cache (H := MemStore_module)
    (mkConfig None None (Some (LimitSeconds (-1))))
    (new_dejavu empty_store) _)).
  vm_compute; reflexivity.
Defined.

(** * Failures during ingestion *)

Section Ingestion.
Context `{Environment} `{Database DB}.
Implicit Types (self : Dejavu DB).
Implicit Types (iterator : list (outcome (string * gset Hash * string))).

Lemma store_calls_app tr1 tr2 :
  store_calls (tr1 ++ tr2) = store_calls tr1 ++ store_calls tr2.
Proof. apply filter_app. Qed.

Lemma same_but_prints_refl self : same_but_prints self self.
Proof. by repeat split. Qed.

Lemma add_song_hashes_same rows self1 self2 :
  same_but_prints self1 self2 →
  (add_song_hashes rows self1).1 = (add_song_hashes rows self2).1 ∧
  same_but_prints (add_song_hashes rows self1).2 (add_song_hashes rows self2).2.
Proof.
  intros (Hdb & Hlimit & Hsongs & Hset & Htrace).
  destruct (first_row_without_hash rows)
    as [Hall|(pre & bad & post & -> & Hpre & Hbad)].
  - rewrite !add_song_hashes_ok by done.
    repeat split; simpl; congruence.
  - rewrite !add_song_hashes_stop by done.
    repeat split; simpl; congruence.
Qed.

(** The refresh reads the store only. *)
Lemma get_fingerprinted_songs_same self1 self2 :
  db self1 = db self2 → limit self1 = limit self2 →
  store_calls (trace self1) = store_calls (trace self2) →
  (get_fingerprinted_songs self1).1 = (get_fingerprinted_songs self2).1 ∧
  same_but_prints (get_fingerprinted_songs self1).2
    (get_fingerprinted_songs self2).2.
Proof.
  intros Hdb Hlimit Htrace. unfold get_fingerprinted_songs. rewrite <- Hdb.
  apply add_song_hashes_same. by repeat split.
Qed.

(** The second loop goes by the store alone: two objects that differ in
    what was printed run it alike. *)
Lemma collect_same iterator self1 self2 :
  same_but_prints self1 self2 →
  (collect iterator self1).1 = (collect iterator self2).1 ∧
  same_but_prints (collect iterator self1).2 (collect iterator self2).2.
Proof.
  revert self1 self2.
  induction iterator as [|[[[name hs] fh]|e] rest IH];
    intros self1 self2 Hsame.
  - done.
  - destruct Hsame as (Hdb & Hlimit & Hsongs & Hset & Htrace).
    simpl. unfold method_bind, store_call. rewrite <- Hdb.
    destruct (insert_song (db self1) name fh None None) as [[sid|e] db1];
      simpl.
    2:{ unfold same_but_prints. simpl. by rewrite Hlimit, Hsongs, Hset, Htrace. }
    destruct (insert_hashes db1 sid hs) as [[[]|e] db2]; simpl.
    2:{ unfold same_but_prints. simpl.
        by rewrite Hlimit, Hsongs, Hset, !store_calls_app, Htrace. }
    destruct (set_song_fingerprinted db2 sid) as [[[]|e] db3]; simpl.
    2:{ unfold same_but_prints. simpl.
        by rewrite Hlimit, Hsongs, Hset, !store_calls_app, Htrace. }
    match goal with
    | |- context [get_fingerprinted_songs ?s1] =>
        match goal with
        | |- context [get_fingerprinted_songs ?s2] =>
            lazymatch s1 with
            | s2 => fail
            | _ =>
                destruct (get_fingerprinted_songs_same s1 s2)
                  as [Hout Hnext]; simpl;
                  [done|done|by rewrite !store_calls_app, Htrace|]
            end
        end
    end.
    destruct (get_fingerprinted_songs _) as [[[]|e1] self1'];
      destruct (get_fingerprinted_songs _) as [[[]|e2] self2'];
      simpl in *; try done.
    by apply IH.
  - assert (Hprinted : ∀ self, same_but_prints self
      (mkDejavu (db self) (limit self) (songs self) (songhashes_set self)
         ((trace self ++ [Print "Failed fingerprinting"])
          ++ [PrintTraceback e]))).
    { intros self. unfold same_but_prints. simpl.
      rewrite !store_calls_app. simpl. by rewrite !app_nil_r. }
    destruct e; simpl; unfold method_bind; simpl; try done;
      try (apply IH; destruct Hsame as (Hdb & Hlimit & Hsongs & Hset & Htrace);
           unfold same_but_prints; simpl;
           rewrite !store_calls_app; simpl; rewrite !app_nil_r; done).
    by apply IH.
Qed.

Lemma same_but_prints_trans self1 self2 self3 :
  same_but_prints self1 self2 → same_but_prints self2 self3 →
  same_but_prints self1 self3.
Proof.
  intros (? & ? & ? & ? & ?) (? & ? & ? & ? & ?).
  repeat split; congruence.
Qed.

(** A worker that failed costs two printed entries. *)
Lemma same_but_prints_failed self e :
  same_but_prints
    (mkDejavu (db self) (limit self) (songs self) (songhashes_set self)
       ((trace self ++ [Print "Failed fingerprinting"]) ++ [PrintTraceback e]))
    self.
Proof.
  repeat split. simpl. rewrite !store_calls_app.
  unfold store_calls. rewrite !filter_cons. simpl.
  by rewrite filter_nil, !app_nil_r.
Qed.

(** X9. A worker that fails costs two printed entries and nothing else.
    When no worker raised [StopIteration], the second loop ends with the
    same outcome, store, cache and store calls as the loop over the
    results alone. *)
Theorem collect_failures_isolated iterator self :
  Raise StopIteration ∉ iterator →
  (collect iterator self).1 =
    (collect (filter (λ x, is_result x) iterator) self).1 ∧
  same_but_prints (collect iterator self).2
    (collect (filter (λ x, is_result x) iterator) self).2.
Proof.
  revert self. induction iterator as [|[[[name hs] fh]|e] rest IH];
    intros self Hstop.
  - split; [done|apply same_but_prints_refl].
  - rewrite filter_cons. simpl.
    apply not_elem_of_cons in Hstop as [_ Hstop].
    simpl. unfold method_bind, store_call.
    destruct (insert_song (db self) name fh None None) as [[sid|e] db1];
      simpl; [|split; [done|apply same_but_prints_refl]].
    destruct (insert_hashes db1 sid hs) as [[[]|e] db2]; simpl;
      [|split; [done|apply same_but_prints_refl]].
    destruct (set_song_fingerprinted db2 sid) as [[[]|e] db3]; simpl;
      [|split; [done|apply same_but_prints_refl]].
    destruct (get_fingerprinted_songs _) as [[[]|e] self4]; simpl;
      [|split; [done|apply same_but_prints_refl]].
    by apply IH.
  - rewrite filter_cons. simpl.
    apply not_elem_of_cons in Hstop as [He Hstop].
    destruct (IH self Hstop) as [Hout Hsame].
    assert (Hfailed :
      (collect rest
         (mkDejavu (db self) (limit self) (songs self) (songhashes_set self)
            ((trace self ++ [Print "Failed fingerprinting"])
             ++ [PrintTraceback e]))).1 =
        (collect (filter (λ x, is_result x) rest) self).1 ∧
      same_but_prints
        (collect rest
           (mkDejavu (db self) (limit self) (songs self) (songhashes_set self)
              ((trace self ++ [Print "Failed fingerprinting"])
               ++ [PrintTraceback e]))).2
        (collect (filter (λ x, is_result x) rest) self).2).
    { destruct (collect_same rest _ _ (same_but_prints_failed self e))
        as [Hout' Hsame'].
      split; [by rewrite Hout'|by eapply same_but_prints_trans]. }
    destruct e; simpl; unfold method_bind; simpl; done.
Qed.

(** X10. A [StopIteration] that a worker raised ends the second loop like
    an exhausted iterator: whatever the pool hands back after it is dropped,
    results included, and nothing is printed for it. *)
Theorem collect_stop_iteration iterator more self :
  collect (iterator ++ Raise StopIteration :: more) self =
  collect iterator self.
Proof.
  revert self. induction iterator as [|[[[name hs] fh]|e] rest IH];
    intros self.
  - done.
  - simpl. unfold method_bind.
    destruct (store_call _ _ self) as [[sid|e] self1]; [|done].
    destruct (store_call _ _ self1) as [[[]|e] self2]; [|done].
    destruct (store_call _ _ self2) as [[[]|e] self3]; [|done].
    destruct (get_fingerprinted_songs self3) as [[[]|e] self4]; [|done].
    apply IH.
  - destruct e; simpl; unfold method_bind; simpl; try apply IH. done.
Qed.

(** The first loop over the files whose hash can be read. *)
Lemma select_files_app (files more : list (string * string)) acc self :
  (∀ f ext, (f, ext) ∈ files → ∃ h, unique_hash f = Return h) →
  select_files (files ++ more) acc self =
  select_files more
    (acc ++
     filter (λ f, ¬ already_fingerprinted (songhashes_set self) f) files.*1)
    (with_trace self
       (notice <$>
        filter (λ f, already_fingerprinted (songhashes_set self) f) files.*1)).
Proof.
  revert acc self. induction files as [|[f ext] files IH]; intros acc self Hall.
  - simpl. by rewrite app_nil_r, with_trace_nil.
  - destruct (Hall f ext) as [h Hh]; [by left|].
    assert (Hrest : ∀ f' ext', (f', ext') ∈ files →
              ∃ h', unique_hash f' = Return h').
    { intros f' ext' Hin. apply (Hall f' ext'). by right. }
    rewrite fmap_cons, !filter_cons. change ((f, ext).1) with f.
    rewrite <- app_comm_cons.
    destruct (decide (h ∈ songhashes_set self)) as [Hin|Hnotin].
    + erewrite select_files_skip by done. rewrite IH by done.
      assert (Hdup : already_fingerprinted (songhashes_set self) f = true).
      { unfold already_fingerprinted. rewrite Hh. by apply bool_decide_eq_true. }
      rewrite decide_False by (rewrite Hdup; auto).
      rewrite (decide_True (P := already_fingerprinted _ f))
        by (rewrite Hdup; exact I).
      by rewrite fmap_cons, with_trace_app.
    + erewrite select_files_keep by done. rewrite IH by done.
      assert (Hdup : already_fingerprinted (songhashes_set self) f = false).
      { unfold already_fingerprinted. rewrite Hh. by apply bool_decide_eq_false. }
      rewrite decide_True by (rewrite Hdup; auto).
      rewrite (decide_False (P := already_fingerprinted _ f))
        by (rewrite Hdup; auto).
      by rewrite <- app_assoc.
Qed.

(** X11. The first loop hashes every listed file before a task is handed
    out.  When the content hash of a listed file cannot be read, the run
    raises that error: the files before it that were known got their
    notice, no file was handed to a worker and the store was not called. *)
Theorem fingerprint_directory_hash_failure path extensions nprocesses self
    (before after : list (string * string)) filename ext e :
  find_files path extensions = before ++ (filename, ext) :: after →
  (∀ f ext', (f, ext') ∈ before → ∃ h, unique_hash f = Return h) →
  unique_hash filename = Raise e →
  fingerprint_directory path extensions nprocesses self =
  (Raise e,
   with_trace self
     (notice <$>
      filter (λ f, already_fingerprinted (songhashes_set self) f) before.*1)).
Proof.
  intros Hfiles Hbefore Hfail. unfold fingerprint_directory, method_bind.
  rewrite Hfiles, select_files_app by done. simpl.
  unfold method_bind, call. by rewrite Hfail.
Qed.

(** X12. When the file cannot be hashed, its sound file cannot be opened,
    or the decoder cannot read it, [fingerprint_file] raises and the object,
    store included, is as it was: nothing of the file was inserted. *)
Theorem fingerprint_file_decoder_failure filepath song_name creative_id self :
  (∃ e, unique_hash filepath = Raise e) ∨
  (∃ e, soundfile_duration filepath = Raise e) ∨
  (∃ e, read (unpack (ArgPath filepath) (limit self)).1
          (unpack (ArgPath filepath) (limit self)).2 = Raise e) →
  ∃ e, fingerprint_file filepath song_name creative_id self = (Raise e, self).
Proof.
  intros Hfail. unfold fingerprint_file, method_bind, call, get_self, raise.
  destruct (unique_hash filepath) as [h|e]; simpl; [|by eexists].
  destruct (soundfile_duration filepath) as [d|e]; simpl; [|by eexists].
  case_decide; [by eexists|].
  destruct Hfail as [[e [=]]|[[e [=]]|[e Hread]]].
  unfold _fingerprint_worker.
  destruct (unpack (ArgPath filepath) (limit self)) as [f l]. simpl in Hread.
  rewrite Hread. by eexists.
Qed.

(** What a run of [fingerprint_file] that returns has read and left. *)
Lemma fingerprint_file_return filepath song_name creative_id self
    self' :
  fingerprint_file filepath song_name creative_id self = (Return (), self') →
  limit self' = limit self ∧
  songs self' = get_songs (db self') ∧
  songhashes_set self' = row_hashes (get_songs (db self')) ∧
  ∃ h duration,
    unique_hash filepath = Return h ∧ (h ∉ songhashes_set self) ∧
    soundfile_duration filepath = Return duration.
Proof.
  unfold fingerprint_file, method_bind, call, get_self, raise, store_call.
  destruct (unique_hash filepath) as [h|e]; simpl; [|done].
  destruct (soundfile_duration filepath) as [d|e]; simpl; [|done].
  case_decide; [done|].
  destruct (_fingerprint_worker _ _ _) as [[[name hs] fh]|e]; simpl; [|done].
  destruct (insert_song (db self) name fh (Some d) creative_id)
    as [[sid|e] db1]; simpl; [|done].
  destruct (insert_hashes db1 sid hs) as [[[]|e] db2]; simpl; [|done].
  destruct (set_song_fingerprinted db2 sid) as [[[]|e] db3]; simpl; [|done].
  intros ->%get_fingerprinted_songs_return. simpl.
  split_and!; [done..|]. by exists h, d.
Qed.

(** X13. A run of [fingerprint_file] that returns did so for a file whose
    hash was not in the cache, and leaves the cache refreshed: [songs] are
    the rows of the store after the insertion and the cache holds exactly
    their content hashes.  The limit is unchanged. *)
Theorem fingerprint_file_success_state filepath song_name creative_id self
    self' :
  fingerprint_file filepath song_name creative_id self = (Return (), self') →
  limit self' = limit self ∧
  songs self' = get_songs (db self') ∧
  songhashes_set self' = row_hashes (get_songs (db self')) ∧
  ∃ h duration,
    unique_hash filepath = Return h ∧ (h ∉ songhashes_set self) ∧
    soundfile_duration filepath = Return duration.
Proof. apply fingerprint_file_return. Qed.

(** X14. After a run of [fingerprint_file] that returned, when the store
    lists a row with the content hash of the file, every further run on the
    same file raises the "already fingerprinted" exception and changes
    nothing. *)
Theorem fingerprint_file_twice filepath song_name creative_id self self' h
    row :
  fingerprint_file filepath song_name creative_id self = (Return (), self') →
  unique_hash filepath = Return h →
  row ∈ get_songs (db self') →
  row !! FIELD_FILE_SHA1 = Some h →
  ∀ song_name' creative_id',
    fingerprint_file filepath song_name' creative_id' self' =
    (Raise (Exception
       ((py_or song_name' (path_to_songname filepath))
        ++ " already fingerprinted.")), self').
Proof.
  intros Hfirst Hhash Hrow Hkey song_name' creative_id'.
  destruct (fingerprint_file_return _ _ _ _ _ Hfirst)
    as (_ & _ & Hset & _ & duration & _ & _ & Hduration).
  unfold fingerprint_file, method_bind, call, get_self, raise.
  rewrite Hhash, Hduration. simpl. rewrite decide_True; [done|].
  rewrite Hset. apply elem_of_row_hashes. by exists row.
Qed.

(** X15. When [fingerprint_file] raises although the flag of the new song
    was set, the error is the [KeyError] of the cache refresh: the three
    store calls were all made, and [self.songs] is already the new list of
    rows.  Any other error leaves the new song, if it was inserted,
    without its flag. *)
Theorem fingerprint_file_error_after_flag filepath song_name creative_id self
    self' e tr sid :
  fingerprint_file filepath song_name creative_id self = (Raise e, self') →
  trace self' = trace self ++ tr →
  SetSongFingerprinted sid ∈ tr →
  e = KeyError FIELD_FILE_SHA1 ∧
  songs self' = get_songs (db self') ∧
  ∃ song_name' file_hash duration hashes,
    tr = [InsertSong song_name' file_hash duration creative_id sid;
          InsertHashes sid hashes; SetSongFingerprinted sid].
Proof.
  unfold fingerprint_file, method_bind, call, get_self, raise, store_call.
  assert (Hnil : ∀ tr0 : list event, tr0 = tr0 ++ tr → tr = []).
  { intros tr0 Heq. apply (app_inv_head tr0). by rewrite app_nil_r. }
  destruct (unique_hash filepath) as [h|e0]; simpl.
  2:{ intros [= <- <-] ->%Hnil ?%elem_of_nil. done. }
  destruct (soundfile_duration filepath) as [d|e0]; simpl.
  2:{ intros [= <- <-] ->%Hnil ?%elem_of_nil. done. }
  case_decide.
  { intros [= <- <-] ->%Hnil ?%elem_of_nil. done. }
  destruct (_fingerprint_worker _ _ _) as [[[name hs] fh]|e0]; simpl.
  2:{ intros [= <- <-] ->%Hnil ?%elem_of_nil. done. }
  destruct (insert_song (db self) name fh (Some d) creative_id)
    as [[sid0|e0] db1]; simpl.
  2:{ intros [= <- <-]. simpl. intros ->%Hnil ?%elem_of_nil. done. }
  destruct (insert_hashes db1 sid0 hs) as [[[]|e0] db2]; simpl.
  2:{ intros [= <- <-]. simpl. intros <-%app_inv_head.
      intros [=]%list_elem_of_singleton. }
  destruct (set_song_fingerprinted db2 sid0) as [[[]|e0] db3]; simpl.
  2:{ intros [= <- <-]. simpl. rewrite <- app_assoc.
      intros <-%app_inv_head. simpl.
      intros [[=]|[=]%list_elem_of_singleton]%elem_of_cons. }
  match goal with |- context [get_fingerprinted_songs ?s] =>
    pose proof (get_fingerprinted_songs_frame s) as (_ & _ & Htrace);
    pose proof (get_fingerprinted_songs_songs s) as Hsongs;
    destruct (get_fingerprinted_songs s) as [[[]|e0] self4] eqn:Hrefresh
  end; [done|].
  intros [= <- <-]. simpl in Htrace, Hsongs. rewrite Htrace, <- !app_assoc.
  intros <-%app_inv_head. simpl.
  intros [[=]|[[=]|[= <-]%list_elem_of_singleton]%elem_of_cons]%elem_of_cons.
  split_and!; [by eapply get_fingerprinted_songs_raise|done|].
  by exists name, fh, (Some d), hs.
Qed.

End Ingestion.

Lemma collect_failures_isolated_witness :
  (collect one_failure_one_result (new_dejavu empty_store)).1 =
  (collect (filter (λ x, is_result x) one_failure_one_result)
     (new_dejavu empty_store)).1.
Proof.
  refine (proj1 (collect_failures_isolated one_failure_one_result
    (new_dejavu empty_store) _)).
  unfold one_failure_one_result.
  intros [[=]|[[=]|[]%elem_of_nil]%elem_of_cons]%elem_of_cons.
Defined.

Lemma fingerprint_directory_hash_failure_witness :
  fingerprint_directory
    (H := unreadable_environment
            [("a.wav", "wav"); ("bad.wav", "wav"); ("c.wav", "wav")] "bad.wav")
    "songs" ["wav"] None dejavu_with_a =
  (Raise (DecodeError "bad.wav"),
   with_trace dejavu_with_a [notice "a.wav"]).
Proof.
  etrans.
  - refine (fingerprint_directory_hash_failure
      (H := unreadable_environment
              [("a.wav", "wav"); ("bad.wav", "wav"); ("c.wav", "wav")]
              "bad.wav")
      "songs" ["wav"] None dejavu_with_a [("a.wav", "wav")] [("c.wav", "wav")]
      "bad.wav" "wav" (DecodeError "bad.wav") _ _ _).
    + reflexivity.
    + intros f ext' Hin. apply list_elem_of_singleton in Hin.
      injection Hin as -> _. exists "a.wav". reflexivity.
    + reflexivity.
  - vm_compute; reflexivity.
Defined.

Lemma fingerprint_file_decoder_failure_witness :
  ∃ e,
    fingerprint_file (H := unreadable_environment [] "bad.wav") "bad.wav"
      None None (new_dejavu empty_store) =
    (Raise e, new_dejavu empty_store).
Proof.
  apply (fingerprint_file_decoder_failure
    (H := unreadable_environment [] "bad.wav")).
  left. exists (DecodeError "bad.wav"). reflexivity.
Defined.

Lemma fingerprint_file_success_state_witness :
  fingerprint_file (H := toy_environment []) "a.wav" None None
    (new_dejavu empty_store) = (Return (), dejavu_with_a) ∧
  songhashes_set dejavu_with_a = row_hashes (get_songs (db dejavu_with_a)).
Proof.
  split; [vm_compute; reflexivity|].
  refine (proj1 (proj2 (proj2 (fingerprint_file_success_state
    (H := toy_environment []) "a.wav" None None (new_dejavu empty_store)
    dejavu_with_a _)))).
  vm_compute; reflexivity.
Defined.

Lemma fingerprint_file_twice_witness :
  fingerprint_file (H := toy_environment []) "a.wav" (Some "again") None
    dejavu_with_a =
  (Raise (Exception "again already fingerprinted."), dejavu_with_a).
Proof.
  refine (fingerprint_file_twice (H := toy_environment []) "a.wav" None None
    (new_dejavu empty_store) dejavu_with_a "a.wav"
    (<[SONG_DURATION := "1.5"]>
       (<[SONG_NAME := "a.wav"]> {[FIELD_FILE_SHA1 := "a.wav"]}))
    _ _ _ _ (Some "again") None).
  - vm_compute; reflexivity.
  - reflexivity.
  - assert (Hrows : get_songs (db dejavu_with_a) =
              [<[SONG_DURATION := "1.5"]>
                 (<[SONG_NAME := "a.wav"]> {[FIELD_FILE_SHA1 := "a.wav"]})])
      by (vm_compute; reflexivity).
    rewrite Hrows. apply list_elem_of_here.
  - vm_compute; reflexivity.
Defined.

Lemma fingerprint_file_error_after_flag_witness :
  (fingerprint_file (H := toy_environment []) "a.wav" None None
     (new_dejavu one_song_store)).1 = Raise (KeyError FIELD_FILE_SHA1) ∧
  KeyError FIELD_FILE_SHA1 = KeyError FIELD_FILE_SHA1.
Proof.
  split; [vm_compute; reflexivity|].
  refine (proj1 (fingerprint_file_error_after_flag (H := toy_environment [])
    "a.wav" None None (new_dejavu one_song_store)
    (fingerprint_file (H := toy_environment []) "a.wav" None None
       (new_dejavu one_song_store)).2
    (KeyError FIELD_FILE_SHA1)
    (trace (fingerprint_file (H := toy_environment []) "a.wav" None None
              (new_dejavu one_song_store)).2)
    3 _ _ _)).
  - vm_compute; reflexivity.
  - reflexivity.
  - vm_compute. do 2 apply list_elem_of_further. apply list_elem_of_here.
Defined.

(** * The arguments of the worker and of the pool *)


(** X17. The pool always gets at least one process, whatever was asked
    for and whatever the machine reports; a positive request is honoured as
    it is, a negative one gives one process. *)
Theorem pool_size_at_least_one `{Environment} (nprocesses : option Z) :
  1 ≤ pool_size nprocesses ∧
  (∀ n, nprocesses = Some n → 0 < n → pool_size nprocesses = n) ∧
  (∀ n, nprocesses = Some n → n < 0 → pool_size nprocesses = 1).
Proof.
  unfold pool_size. split_and!.
  - destruct nprocesses as [n|]; [destruct (decide (n = 0))|];
      try destruct cpu_count; repeat case_decide; lia.
  - intros n -> Hn. rewrite decide_False by lia. by rewrite decide_False by lia.
  - intros n -> Hn. rewrite decide_False by lia. by rewrite decide_True by lia.
Qed.


Lemma pool_size_at_least_one_witness :
  pool_size (H := toy_environment []) (Some 8) = 8.
Proof.
  refine (proj1 (proj2 (pool_size_at_least_one (H := toy_environment [])
    (Some 8))) 8 _ _); reflexivity.
Defined.

(** * [chunkify] *)

Section Chunkify.
Context {A : Type}.
Implicit Types (lst : list A) (i n k : nat).
Local Open Scope nat_scope.

Lemma omap_lookup_app lst (more : list A) (js : list nat) :
  Forall (λ j, j < length lst) js →
  omap (λ j, (lst ++ more) !! j) js = omap (λ j, lst !! j) js.
Proof.
  induction 1 as [|j js Hj _ IH]; [done|].
  simpl. rewrite lookup_app_l by done.
  destruct (lst !! j); [f_equal|]; apply IH.
Qed.

Lemma slice_from_step_snoc lst x i n :
  slice_from_step (lst ++ [x]) i n =
  slice_from_step lst i n ++
  if decide (i ≤ length lst ∧ Nat.modulo (length lst - i) n = 0)
  then [x] else [].
Proof.
  unfold slice_from_step. rewrite length_app. simpl.
  rewrite Nat.add_1_r, seq_S, filter_app, omap_app. simpl. f_equal.
  - apply omap_lookup_app, Forall_forall.
    intros j [_ Hj%elem_of_seq]%list_elem_of_filter. lia.
  - rewrite filter_cons, filter_nil. case_decide; [|done].
    simpl. by rewrite list_lookup_middle.
Qed.

(** An index of the slice is an index of the list: [lst[i::n][k]] is
    [lst[i + k * n]]. *)
Lemma slice_from_step_lookup lst i n k :
  0 < n → slice_from_step lst i n !! k = lst !! (i + k * n).
Proof.
  intros Hn. revert k. induction lst as [|x lst IH] using rev_ind; intros k.
  - done.
  - rewrite slice_from_step_snoc.
    assert (Hlen : ∀ q, i + q * n = length lst →
              length (slice_from_step lst i n) = q).
    { intros q Hq. apply Nat.le_antisymm.
      - apply Nat.nlt_ge. intros Hlt.
        apply lookup_lt_is_Some in Hlt as [y Hy]. rewrite IH in Hy.
        apply lookup_lt_Some in Hy. lia.
      - destruct q as [|q]; [lia|].
        apply Nat.lt_pred_le. simpl. apply lookup_lt_is_Some. rewrite IH.
        apply lookup_lt_is_Some. nia. }
    case_decide as HP.
    + destruct HP as [Hi Hmod].
      apply Nat.Div0.mod_divides in Hmod as [q Hq].
      specialize (Hlen q ltac:(nia)).
      destruct (Nat.lt_trichotomy k q) as [Hk|[->|Hk]].
      * rewrite lookup_app_l by lia. rewrite IH.
        rewrite lookup_app_l; [done|nia].
      * rewrite lookup_app_r by lia. rewrite Hlen, Nat.sub_diag. simpl.
        replace (i + q * n) with (length lst) by nia.
        by rewrite list_lookup_middle.
      * rewrite lookup_ge_None_2 by (rewrite length_app; simpl; lia).
        symmetry. apply lookup_ge_None_2. rewrite length_app. simpl. nia.
    + rewrite app_nil_r, IH.
      destruct (decide (i + k * n = length lst)) as [Heq|Hne].
      * exfalso. apply HP. split; [lia|].
        replace (length lst - i) with (k * n) by lia.
        apply Nat.Div0.mod_mul.
      * destruct (decide (i + k * n < length lst)).
        -- by rewrite lookup_app_l.
        -- rewrite !lookup_ge_None_2; [done|rewrite length_app; simpl; lia|lia].
Qed.

Lemma slice_step_residue i n len :
  i < n → (i ≤ len ∧ Nat.modulo (len - i) n = 0) ↔ i = Nat.modulo len n.
Proof.
  intros Hi. split.
  - intros [Hle Hmod]. apply Nat.Div0.mod_divides in Hmod as [q Hq].
    replace len with (i + q * n) by lia.
    rewrite Nat.Div0.mod_add. symmetry. by apply Nat.mod_small.
  - intros ->. pose proof (Nat.div_mod_eq len n) as Hdm.
    split; [lia|].
    replace (len - Nat.modulo len n) with (Nat.div len n * n) by lia.
    apply Nat.Div0.mod_mul.
Qed.

Lemma concat_one_more (g : nat → list A) (m : nat) (x : A) (a c : nat) :
  concat ((λ i, g i ++ if decide (i = m) then [x] else []) <$> seq a c) ≡ₚ
  (if decide (a ≤ m < a + c) then [x] else []) ++ concat (g <$> seq a c).
Proof.
  revert a. induction c as [|c IH]; intros a; simpl.
  - by rewrite decide_False by lia.
  - rewrite IH. destruct (decide (a = m)) as [->|Hne].
    + rewrite (decide_False (P := S m ≤ m < S m + c)) by lia.
      rewrite decide_True by lia. simpl.
      rewrite <- app_assoc. simpl. by rewrite <- Permutation_middle.
    + rewrite app_nil_r. destruct (decide (S a ≤ m < S a + c)).
      * rewrite decide_True by lia. simpl. by rewrite <- Permutation_middle.
      * rewrite decide_False by lia. done.
Qed.

Lemma chunkify_snoc lst x (n : Z) :
  chunkify (lst ++ [x]) n =
  (λ i, slice_from_step lst i (Z.to_nat n) ++
        if decide (i = Nat.modulo (length lst) (Z.to_nat n)) then [x] else [])
    <$> seq 0 (Z.to_nat n).
Proof.
  unfold chunkify. apply list_fmap_ext.
  intros k i Hi. apply lookup_seq in Hi as [-> Hk]. simpl.
  rewrite slice_from_step_snoc.
  pose proof (slice_step_residue k (Z.to_nat n) (length lst) Hk) as Hres.
  destruct (decide (k = Nat.modulo (length lst) (Z.to_nat n))).
  - by rewrite decide_True by by apply Hres.
  - by rewrite decide_False by (by rewrite Hres).
Qed.

Lemma chunkify_concat lst (n : Z) :
  (0 < n)%Z → concat (chunkify lst n) ≡ₚ lst.
Proof.
  intros Hn. induction lst as [|x lst IH] using rev_ind.
  - unfold chunkify, slice_from_step. simpl.
    induction (seq 0 (Z.to_nat n)) as [|i l IHl]; [done|exact IHl].
  - rewrite chunkify_snoc, concat_one_more.
    rewrite decide_True.
    + fold (chunkify lst n). rewrite IH. simpl.
      by rewrite <- Permutation_cons_append.
    + pose proof (Nat.mod_upper_bound (length lst) (Z.to_nat n)). lia.
Qed.

End Chunkify.

(** X18. For a positive [n], [chunkify] returns [n] chunks that hold the
    elements of the list, each as many times as the list does; for
    [n <= 0] it returns no chunk at all, so the elements are lost. *)
Theorem chunkify_partition {A} (lst : list A) (n : Z) :
  ((0 < n)%Z →
   length (chunkify lst n) = Z.to_nat n ∧ concat (chunkify lst n) ≡ₚ lst) ∧
  ((n ≤ 0)%Z → chunkify lst n = []).
Proof.
  split.
  - intros Hn. split; [|by apply chunkify_concat].
    unfold chunkify. by rewrite length_fmap, length_seq.
  - intros Hn. unfold chunkify. by replace (Z.to_nat n) with 0%nat by lia.
Qed.

(** X19. The element [k] of the chunk [i] is the element [i + k * n] of
    the list: the element [j] of the list is in the chunk [j mod n], at
    the place [j div n], and the chunks keep the order of the list. *)
Theorem chunkify_index {A} (lst : list A) (n : Z) :
  (0 < n)%Z →
  (∀ i k, (i < Z.to_nat n)%nat →
     chunkify lst n !! i ≫= (.!! k) = lst !! (i + k * Z.to_nat n)%nat) ∧
  (∀ j,
     chunkify lst n !! (Nat.modulo j (Z.to_nat n))
       ≫= (.!! (Nat.div j (Z.to_nat n))) = lst !! j).
Proof.
  intros Hn.
  assert (Hchunk : ∀ i k, (i < Z.to_nat n)%nat →
     chunkify lst n !! i ≫= (.!! k) = lst !! (i + k * Z.to_nat n)%nat).
  { intros i k Hi. unfold chunkify.
    rewrite list_lookup_fmap, lookup_seq_lt by done. simpl.
    apply slice_from_step_lookup. lia. }
  split; [done|]. intros j.
  rewrite Hchunk by (apply Nat.mod_upper_bound; lia).
  f_equal. pose proof (Nat.div_mod_eq j (Z.to_nat n)). lia.
Qed.

(** X20. The chunks are balanced: the lengths of two chunks differ by one
    at most, and a chunk is never longer than a chunk before it. *)
Theorem chunkify_balanced {A} (lst : list A) (n : Z) i i' c c' :
  chunkify lst n !! i = Some c →
  chunkify lst n !! i' = Some c' →
  (length c' ≤ length c + 1)%nat ∧ ((i ≤ i')%nat → (length c' ≤ length c)%nat).
Proof.
  unfold chunkify. rewrite !list_lookup_fmap.
  intros Hc Hc'.
  apply fmap_Some in Hc as (? & [-> Hi]%lookup_seq & ->).
  apply fmap_Some in Hc' as (? & [-> Hi']%lookup_seq & ->).
  simpl in *. set (N := Z.to_nat n) in *.
  assert (HN : (0 < N)%nat) by lia.
  assert (Hvalid : ∀ j k, (k < length (slice_from_step lst j N))%nat ↔
                          (j + k * N < length lst)%nat).
  { intros j k. rewrite <- !lookup_lt_is_Some.
    by rewrite slice_from_step_lookup. }
  split.
  - destruct (length (slice_from_step lst i' N)) as [|[|m]] eqn:Hm; [lia..|].
    assert (Hlast : (i' + S m * N < length lst)%nat) by (apply Hvalid; lia).
    assert (m < length (slice_from_step lst i N))%nat by (apply Hvalid; nia).
    lia.
  - intros Hle.
    destruct (length (slice_from_step lst i' N)) as [|m] eqn:Hm; [lia|].
    assert (Hlast : (i' + m * N < length lst)%nat) by (apply Hvalid; lia).
    assert (m < length (slice_from_step lst i N))%nat by (apply Hvalid; nia).
    lia.
Qed.

Lemma chunkify_partition_witness :
  length (chunkify [1; 2; 3; 4; 5; 6; 7] 3) = 3%nat ∧
  concat (chunkify [1; 2; 3; 4; 5; 6; 7] 3) ≡ₚ [1; 2; 3; 4; 5; 6; 7].
Proof.
  refine (proj1 (chunkify_partition [1; 2; 3; 4; 5; 6; 7] 3) _). reflexivity.
Defined.

Lemma chunkify_index_witness :
  chunkify [10; 20; 30; 40; 50] 2 !! 1%nat ≫= (.!! 1%nat) = Some 40.
Proof.
  refine (proj1 (chunkify_index [10; 20; 30; 40; 50] 2 _) 1%nat 1%nat _).
  - reflexivity.
  - simpl. lia.
Defined.

Lemma chunkify_balanced_witness :
  (length [3; 6] ≤ length [1; 4; 7] + 1)%nat ∧
  ((0 ≤ 2)%nat → (length [3; 6] ≤ length [1; 4; 7])%nat).
Proof.
  refine (chunkify_balanced [1; 2; 3; 4; 5; 6; 7] 3 0 2 [1; 4; 7] [3; 6] _ _);
    reflexivity.
Defined.
